(** * conf: type-directed parsing of configuration text

    A shallow embedding of the Go package [github.com/davidmdm/conf]
    (files [value.go], [cfg.go] and the options file) together with the
    properties its specification states about it.

    Conventions of the embedding.
    - A Go [string] is a [string] of bytes; [[]byte(text)] is its list of bytes.
    - Go variables live in a heap of cells ([list val]); a [*T] is the index
      of a cell; [reflect.New] appends a zeroed cell.
    - An [error] is represented by its message; a function that can also
      panic returns a [result] ([Ok], [Err msg] or [Panic recovered]).
    - Functions of the Go standard library that the package calls
      ([strconv.ParseInt], [time.ParseDuration], ...) are fields of the
      class [Host]; [strconv.ParseBool], [strings.TrimSpace],
      [strings.Split] and [strings.Cut] are written out.
    - A [reflect.Type] is a type expression [typ]; for types declared in
      terms of themselves ([type P *P], [type N []*N]) it is a name in a
      table of declarations, and [parse_decl] is [parse] on such a table,
      with fuel. *)

From Stdlib Require Import ZArith Ascii.
From stdpp Require Import base option list strings gmap sorting.

Local Open Scope Z_scope.
Set Warnings "-register-all".

(** ** Strings *)

Module Strings.

Definition byte (n : nat) : ascii := ascii_of_nat n.

Fixpoint bytes (l : list nat) : string :=
  match l with
  | [] => EmptyString
  | n :: l => String (byte n) (bytes l)
  end.

Definition is_empty (s : string) : bool :=
  match s with EmptyString => true | String _ _ => false end.

(** [unicode.IsSpace] on a one-byte rune: tab, line feed, vertical tab,
    form feed, carriage return, space. *)
Definition space1 (a : ascii) : bool :=
  let n := nat_of_ascii a in
  ((9 <=? n)%nat && (n <=? 13)%nat) || (n =? 32)%nat.

(** [unicode.IsSpace] on a two-byte rune: U+0085 and U+00A0. *)
Definition space2 (a b : ascii) : bool :=
  (nat_of_ascii a =? 194)%nat &&
  ((nat_of_ascii b =? 133)%nat || (nat_of_ascii b =? 160)%nat).

(** [unicode.IsSpace] on a three-byte rune: U+1680, U+2000..U+200A,
    U+2028, U+2029, U+202F, U+205F, U+3000. *)
Definition space3 (a b c : ascii) : bool :=
  let x := nat_of_ascii a in
  let y := nat_of_ascii b in
  let z := nat_of_ascii c in
  ((x =? 225) && (y =? 154) && (z =? 128))%nat
  || ((x =? 226) && (y =? 128) &&
      (((128 <=? z) && (z <=? 138)) || (z =? 168) || (z =? 169) || (z =? 175)))%nat
  || ((x =? 226) && (y =? 129) && (z =? 159))%nat
  || ((x =? 227) && (y =? 128) && (z =? 128))%nat.

(** [strings.TrimLeftFunc(s, unicode.IsSpace)]. *)
Fixpoint TrimLeft (s : string) : string :=
  match s with
  | EmptyString => s
  | String a r1 =>
      if space1 a then TrimLeft r1
      else match r1 with
           | EmptyString => s
           | String b r2 =>
               if space2 a b then TrimLeft r2
               else match r2 with
                    | EmptyString => s
                    | String c r3 => if space3 a b c then TrimLeft r3 else s
                    end
           end
  end.

(** The same scan over the reversed string: the bytes of a rune arrive
    last byte first. *)
Fixpoint TrimLeftRev (s : string) : string :=
  match s with
  | EmptyString => s
  | String a r1 =>
      if space1 a then TrimLeftRev r1
      else match r1 with
           | EmptyString => s
           | String b r2 =>
               if space2 b a then TrimLeftRev r2
               else match r2 with
                    | EmptyString => s
                    | String c r3 => if space3 c b a then TrimLeftRev r3 else s
                    end
           end
  end.

Definition TrimRight (s : string) : string :=
  String.rev (TrimLeftRev (String.rev s)).

(** [strings.TrimSpace]. *)
Definition TrimSpace (s : string) : string := TrimRight (TrimLeft s).

(** [strings.Split(s, sep)] for a one-byte separator: [n] separators give
    [n + 1] pieces, the empty text gives one empty piece. *)
Fixpoint Split (s : string) (sep : ascii) : list string :=
  match s with
  | EmptyString => [EmptyString]
  | String c r =>
      if Ascii.eqb c sep then EmptyString :: Split r sep
      else match Split r sep with
           | piece :: rest => String c piece :: rest
           | [] => [String c EmptyString]
           end
  end.

(** [strings.Cut(s, sep)] for a one-byte separator: the text before and
    after the first separator, or [s], the empty text and [false]. *)
Fixpoint Cut (s : string) (sep : ascii) : string * string * bool :=
  match s with
  | EmptyString => (EmptyString, EmptyString, false)
  | String c r =>
      if Ascii.eqb c sep then (EmptyString, r, true)
      else match Cut r sep with
           | (before, after, true) => (String c before, after, true)
           | (_, _, false) => (s, EmptyString, false)
           end
  end.

(** [strings.HasPrefix(s, p)]. *)
Fixpoint HasPrefix (s p : string) : bool :=
  match p, s with
  | EmptyString, _ => true
  | String _ _, EmptyString => false
  | String b p', String a s' => Ascii.eqb a b && HasPrefix s' p'
  end.

Definition quote : string := String (byte 34) EmptyString.
Definition newline : string := String (byte 10) EmptyString.

End Strings.

Import Strings.

(** ** Values and the heap *)

(** A location is the index of a heap cell; a Go pointer is [nil] or a
    location. *)
Abbreviation loc := nat.

(** The contents of a variable.  Integers of every width are [VInt] or
    [VUint]; a float is its IEEE bit pattern; a slice or map is [None] when
    nil; a map keeps its entries in insertion order; values of the kinds
    the package cannot parse (structs, arrays, channels, ...) are opaque. *)
Inductive val :=
| VBool (b : bool)
| VInt (n : Z)
| VUint (n : Z)
| VFloat (bits : Z)
| VString (s : string)
| VSlice (items : option (list val))
| VMap (entries : option (list (val * val)))
| VPtr (target : option loc)
| VOpaque (repr : string).

Abbreviation heap := (list val).

(** What a call returns: [nil], an error, or a panic with the text [%v]
    prints for the recovered value. *)
Inductive result :=
| Ok
| Err (msg : string)
| Panic (recovered : string).

(** ** The host: Go standard library functions used by the package *)

Class Host := {
  (** [strconv.IntSize], the width of [int] and [uint]. *)
  IntSize : Z;
  (** [strconv.ParseInt(text, base, bitSize)]. *)
  ParseInt : string -> Z -> Z -> Z + string;
  (** [strconv.ParseUint(text, base, bitSize)]. *)
  ParseUint : string -> Z -> Z -> Z + string;
  (** [strconv.ParseFloat(text, bitSize)], the result as a bit pattern. *)
  ParseFloat : string -> Z -> Z + string;
  (** [time.ParseDuration(text)], in nanoseconds. *)
  ParseDuration : string -> Z + string;
  (** [strconv.Quote]. *)
  Quote : string -> string;
  (** [==] on floats, given as bit patterns (false on NaN). *)
  FloatEq : Z -> Z -> bool;
  (** [os.LookupEnv]. *)
  LookupEnv : string -> string * bool
}.

(** [strconv.ParseBool]. *)
Definition ParseBool `{Host} (str : string) : bool + string :=
  if bool_decide (str ∈ ["1"; "t"; "T"; "TRUE"; "true"; "True"]) then inl true
  else if bool_decide (str ∈ ["0"; "f"; "F"; "FALSE"; "false"; "False"]) then inl false
  else inr ("strconv.ParseBool: parsing " +:+ Quote str +:+ ": invalid syntax").

(** ** Types *)

(** [encoding.TextUnmarshaler] / [encoding.BinaryUnmarshaler] on a pointer
    receiver: the method sees the referenced value and the bytes, leaves a
    new referenced value and returns. *)
Definition decoder := val -> string -> val * result.

(** What [reflect] reports about a defined (named) type. *)
Record tinfo := {
  PkgPath : string;
  Name : string;
  Str : string;
  UnmarshalText : option decoder;
  UnmarshalBinary : option decoder
}.

(** The kinds that have no element type.  [KOther] stands for every kind
    the switch in [parse] does not list (struct, array, interface, chan,
    func, complex, uintptr, unsafe pointer) and carries [t.String()]. *)
Inductive kind :=
| KString
| KInt | KInt8 | KInt16 | KInt32 | KInt64
| KUint | KUint8 | KUint16 | KUint32 | KUint64
| KBool
| KFloat32 | KFloat64
| KOther (shown : string).

(** A [reflect.Type].  [named] is [None] for a predeclared or literal
    type. *)
Inductive typ :=
| TBasic (named : option tinfo) (k : kind)
| TSlice (named : option tinfo) (elem : typ)
| TMap (named : option tinfo) (key elem : typ)
| TPtr (elem : typ).

Definition named_of (t : typ) : option tinfo :=
  match t with
  | TBasic n _ | TSlice n _ | TMap n _ _ => n
  | TPtr _ => None
  end.

Definition kind_string (k : kind) : string :=
  match k with
  | KString => "string"
  | KInt => "int" | KInt8 => "int8" | KInt16 => "int16"
  | KInt32 => "int32" | KInt64 => "int64"
  | KUint => "uint" | KUint8 => "uint8" | KUint16 => "uint16"
  | KUint32 => "uint32" | KUint64 => "uint64"
  | KBool => "bool"
  | KFloat32 => "float32" | KFloat64 => "float64"
  | KOther shown => shown
  end.

(** [t.String()]. *)
Fixpoint String_ (t : typ) : string :=
  match t with
  | TBasic (Some n) _ | TSlice (Some n) _ | TMap (Some n) _ _ => Str n
  | TBasic None k => kind_string k
  | TSlice None e => "[]" +:+ String_ e
  | TMap None k e => "map[" +:+ String_ k +:+ "]" +:+ String_ e
  | TPtr e => "*" +:+ String_ e
  end.

(** [t.Bits()] for the sized kinds. *)
Definition Bits `{Host} (k : kind) : Z :=
  match k with
  | KInt | KUint => IntSize
  | KInt8 | KUint8 => 8
  | KInt16 | KUint16 => 16
  | KInt32 | KUint32 | KFloat32 => 32
  | KInt64 | KUint64 | KFloat64 => 64
  | _ => 0
  end.

(** The zero value [reflect.New] and [reflect.MakeSlice] fill a cell with. *)
Definition zero (t : typ) : val :=
  match t with
  | TBasic _ KString => VString EmptyString
  | TBasic _ (KInt | KInt8 | KInt16 | KInt32 | KInt64) => VInt 0
  | TBasic _ (KUint | KUint8 | KUint16 | KUint32 | KUint64) => VUint 0
  | TBasic _ KBool => VBool false
  | TBasic _ (KFloat32 | KFloat64) => VFloat 0
  | TBasic _ (KOther _) => VOpaque EmptyString
  | TSlice _ _ => VSlice None
  | TMap _ _ _ => VMap None
  | TPtr _ => VPtr None
  end.

(** [t.PkgPath() == "time" && t.Name() == "Duration"]. *)
Definition is_Duration (n : option tinfo) : bool :=
  match n with
  | Some i => bool_decide (PkgPath i = "time") && bool_decide (Name i = "Duration")
  | None => false
  end.

(** ** reflect.Value *)

(** The two shapes of [reflect.Value] that [parse] meets: [Addr l] is
    [reflect.ValueOf(p)] for the non-nil pointer [p] to cell [l] (it cannot
    be set), [Cell l] is the settable variable in cell [l] (what [Elem],
    [Index] and [reflect.New(..).Elem()] give). *)
Inductive Value :=
| Addr (l : loc)
| Cell (l : loc).

(** [v.Set(x)] and the typed setters: reflect panics on a value that is not
    settable. *)
Definition Set_ (v : Value) (x : val) (h : heap) : heap * result :=
  match v with
  | Cell l => (<[l := x]> h, Ok)
  | Addr _ => (h, Panic "reflect: reflect.Value.Set using unaddressable value")
  end.

(** [reflect.New(t)]: a fresh zeroed cell, at the end of the heap. *)
Definition New (t : typ) (h : heap) : loc * heap :=
  (length h, h ++ [zero t]).

(** The first two statements of the pointer loop: the cell [v] points to,
    after [v.Set(reflect.New(t.Elem()))] when [v] is nil.  (A cell of
    pointer type that holds anything but a pointer does not occur in a Go
    heap; it counts as nil here.) *)
Definition deref (e : typ) (v : Value) (h : heap) : loc * heap :=
  match v with
  | Addr l => (l, h)
  | Cell c =>
      match h !! c with
      | Some (VPtr (Some l)) => (l, h)
      | _ => let '(l, h1) := New e h in (l, <[c := VPtr (Some l)]> h1)
      end
  end.

(** Calling [UnmarshalText] or [UnmarshalBinary] on the pointer to cell
    [l]. *)
Definition invoke (d : decoder) (l : loc) (text : string) (h : heap) : heap * result :=
  match h !! l with
  | Some x => let '(x', r) := d x text in (<[l := x']> h, r)
  | None => (h, Panic "runtime error: invalid memory address or nil pointer dereference")
  end.

(** [[]byte(text)] as a slice value. *)
Definition byte_slice (text : string) : val :=
  VSlice (Some ((fun a => VUint (Z.of_nat (nat_of_ascii a))) <$> String.list_ascii_of_string text)).

(** [==] on map keys.  Only kinds that [parse] can produce occur. *)
Definition key_eq `{Host} (a b : val) : bool :=
  match a, b with
  | VBool x, VBool y => bool_decide (x = y)
  | VInt x, VInt y => bool_decide (x = y)
  | VUint x, VUint y => bool_decide (x = y)
  | VFloat x, VFloat y => FloatEq x y
  | VString x, VString y => bool_decide (x = y)
  | VPtr x, VPtr y => bool_decide (x = y)
  | _, _ => false
  end.

(** [target.SetMapIndex(k, v)]: replace the entry with an equal key, or add
    one. *)
Fixpoint SetMapIndex `{Host} (target : list (val * val)) (k v : val) : list (val * val) :=
  match target with
  | [] => [(k, v)]
  | (k0, v0) :: rest =>
      if key_eq k0 k then (k0, v) :: rest else (k0, v0) :: SetMapIndex rest k v
  end.

(** [m[k]]. *)
Fixpoint MapIndex `{Host} (target : list (val * val)) (k : val) : option val :=
  match target with
  | [] => None
  | (k0, v0) :: rest => if key_eq k0 k then Some v0 else MapIndex rest k
  end.

(** ** value.go: parse *)

(** The loop over [items] in the slice case: element [i] is parsed into
    cell [base + i]; the first failure ends the loop. *)
Fixpoint parse_items (parse_elem : Value -> string -> heap -> heap * result)
    (base : loc) (items : list string) (h : heap) : heap * result :=
  match items with
  | [] => (h, Ok)
  | subtext :: rest =>
      match parse_elem (Cell base) subtext h with
      | (h1, Ok) => parse_items parse_elem (S base) rest h1
      | failed => failed
      end
  end.

(** The loop over the entries in the map case; [target] is the map built so
    far. *)
Fixpoint parse_entries `{Host} (tk te : typ)
    (parse_key parse_elem : Value -> string -> heap -> heap * result)
    (elems : list string) (target : list (val * val)) (h : heap)
    : heap * (list (val * val) + result) :=
  match elems with
  | [] => (h, inl target)
  | elem :: rest =>
      match Cut elem "=" with
      | (_, _, false) => parse_entries tk te parse_key parse_elem rest target h
      | (key, value, true) =>
          let '(k, h1) := New tk h in
          match parse_key (Cell k) key h1 with
          | (h2, Err err) => (h2, inr (Err ("failed to parse key: " +:+ key +:+ ": " +:+ err)))
          | (h2, Panic p) => (h2, inr (Panic p))
          | (h2, Ok) =>
              let '(v, h3) := New te h2 in
              match parse_elem (Cell v) value h3 with
              | (h4, Err err) =>
                  (h4, inr (Err ("failed to parse value at key: " +:+ key +:+ ": " +:+ err)))
              | (h4, Panic p) => (h4, inr (Panic p))
              | (h4, Ok) =>
                  parse_entries tk te parse_key parse_elem rest
                    (SetMapIndex target (default (zero tk) (h4 !! k)) (default (zero te) (h4 !! v))) h4
              end
          end
      end
  end.

(** [v.Kind() == reflect.Int64]. *)
Definition is_Int64 (k : kind) : bool :=
  match k with
  | KInt64 => true
  | _ => false
  end.

(** The scalar cases of the switch. *)
Definition parse_basic `{Host} (t : typ) (named : option tinfo) (k : kind)
    (v : Value) (text : string) (h : heap) : heap * result :=
  match k with
  | KString => Set_ v (VString text) h
  | KInt | KInt8 | KInt16 | KInt32 | KInt64 =>
      if is_Int64 k && is_Duration named then
        match ParseDuration text with
        | inr err => (h, Err err)
        | inl d => Set_ v (VInt d) h
        end
      else
        match ParseInt text 0 (Bits k) with
        | inr err => (h, Err err)
        | inl n => Set_ v (VInt n) h
        end
  | KUint | KUint8 | KUint16 | KUint32 | KUint64 =>
      match ParseUint text 0 (Bits k) with
      | inr err => (h, Err err)
      | inl n => Set_ v (VUint n) h
      end
  | KBool =>
      match ParseBool text with
      | inr err => (h, Err err)
      | inl b => Set_ v (VBool b) h
      end
  | KFloat32 | KFloat64 =>
      match ParseFloat text (Bits k) with
      | inr err => (h, Err err)
      | inl f => Set_ v (VFloat f) h
      end
  | KOther _ => (h, Err ("destination type not supported: " +:+ String_ t))
  end.

(** [t.Elem().Kind() == reflect.Uint8]. *)
Definition elem_is_Uint8 (e : typ) : bool :=
  match e with
  | TBasic _ KUint8 => true
  | _ => false
  end.

(** Whether [[]byte] is assignable to a slice type with element [e]: the
    element type must be [uint8] itself. *)
Definition bytes_assignable (e : typ) : bool :=
  match e with
  | TBasic None KUint8 => true
  | _ => false
  end.

(** [func parse(v reflect.Value, text string, topLevel bool) error].  The
    type [t] of [v] is passed along with it. *)
Fixpoint parse `{Host} (t : typ) (v : Value) (text : string) (topLevel : bool)
    (h : heap) : heap * result :=
  match t with
  | TPtr e =>
      let '(l, h1) := deref e v h in
      match named_of e ≫= UnmarshalText with
      | Some unmarshaler => invoke unmarshaler l text h1
      | None =>
          match named_of e ≫= UnmarshalBinary with
          | Some unmarshaler => invoke unmarshaler l text h1
          | None => parse e (Cell l) text topLevel h1
          end
      end
  | TBasic named k => parse_basic t named k v text h
  | TSlice _ e =>
      if negb topLevel then (h, Err "cannot support deep slices")
      else if elem_is_Uint8 e then
        if bytes_assignable e then Set_ v (byte_slice text) h
        else (h, Panic ("reflect.Set: value of type []uint8 is not assignable to type "
                        +:+ String_ t))
      else if is_empty (TrimSpace text) then Set_ v (VSlice (Some [])) h
      else
        let items := Split text "," in
        let base := length h in
        let h1 := h ++ replicate (length items) (zero e) in
        match parse_items (fun c subtext => parse e c subtext false) base items h1 with
        | (h2, Ok) => Set_ v (VSlice (Some (take (length items) (drop base h2)))) h2
        | failed => failed
        end
  | TMap _ tk te =>
      if negb topLevel then (h, Err "cannot support deep maps")
      else
        let text := TrimSpace text in
        if is_empty text then (h, Ok)
        else
          match parse_entries tk te (fun c s => parse tk c s false)
                  (fun c s => parse te c s false) (Split text ",") [] h with
          | (h1, inl target) => Set_ v (VMap (Some target)) h1
          | (h1, inr failed) => (h1, failed)
          end
  end.

(** [genericValue[T]]: the destination [dst *T]. *)
Record genericValue := {
  T : typ;
  dst : loc
}.

(** [func (v genericValue[T]) Set(value any)]. *)
Definition genericValue_Set (v : genericValue) (value : val) (h : heap) : heap :=
  <[dst v := value]> h.

(** [func (v genericValue[T]) Parse(text string) error]. *)
Definition genericValue_Parse `{Host} (v : genericValue) (text : string) (h : heap)
    : heap * result :=
  parse (TPtr (T v)) (Addr (dst v)) text true h.

(** ** The options file *)

Record options := {
  required : bool;
  nonEmpty : bool;
  skipEmpty : bool;
  fallback : option val
}.

(** [type Option[T any]]: a function that updates the [options] it is
    handed. *)
Definition Option_ := options -> options.

Definition Required (value : bool) : Option_ :=
  fun o => {| required := value; nonEmpty := nonEmpty o;
              skipEmpty := skipEmpty o; fallback := fallback o |}.

Definition NonEmpty (value : bool) : Option_ :=
  fun o => {| required := required o; nonEmpty := value;
              skipEmpty := skipEmpty o; fallback := fallback o |}.

Definition SkipEmpty (value : bool) : Option_ :=
  fun o => {| required := required o; nonEmpty := nonEmpty o;
              skipEmpty := value; fallback := fallback o |}.

(** [Default(value)]: [o.fallback = value], boxed as [any] (never the nil
    interface for a value of a concrete type). *)
Definition Default (value : val) : Option_ :=
  fun o => {| required := required o; nonEmpty := nonEmpty o;
              skipEmpty := skipEmpty o; fallback := Some value |}.

(** [var options options]. *)
Definition zero_options : options :=
  {| required := false; nonEmpty := false; skipEmpty := false; fallback := None |}.

(** ** cfg.go *)

(** What a call of a [LookupFunc] gives: its two results, or a panic. *)
Inductive found :=
| Returns (value : string) (ok : bool)
| Panics (recovered : string).

Definition LookupFunc := string -> found.

Record field := {
  value : genericValue;
  opts : options
}.

Record Parser := {
  fields : gmap string field;
  lookup : LookupFunc
}.

(** The loop of the closure [joinLookupFuncs] returns; [value] and [ok] are
    its named results. *)
Fixpoint joinLookupFuncs_loop (fns : list LookupFunc) (key : string)
    (value : string) (ok : bool) : found :=
  match fns with
  | [] => Returns value ok
  | fn :: rest =>
      match fn key with
      | Panics p => Panics p
      | Returns value ok =>
          if ok then Returns value ok else joinLookupFuncs_loop rest key value ok
      end
  end.

Definition joinLookupFuncs (fns : list LookupFunc) : LookupFunc :=
  fun key => joinLookupFuncs_loop fns key EmptyString false.

(** [os.LookupEnv] as a [LookupFunc]. *)
Definition os_LookupEnv `{Host} : LookupFunc :=
  fun key => let '(value, ok) := LookupEnv key in Returns value ok.

(** The first loop of [MakeParser]: the non-nil functions, in order.  A nil
    [LookupFunc] is [None]. *)
Fixpoint non_nil (funcs : list (option LookupFunc)) : list LookupFunc :=
  match funcs with
  | [] => []
  | None :: rest => non_nil rest
  | Some fn :: rest => fn :: non_nil rest
  end.

(** [func MakeParser(funcs ...LookupFunc) Parser]. *)
Definition MakeParser `{Host} (funcs : list (option LookupFunc)) : Parser :=
  let lookupFuncs := non_nil funcs in
  {| fields := ∅;
     lookup := if (0 <? length lookupFuncs)%nat then joinLookupFuncs lookupFuncs
               else os_LookupEnv |}.

(** [func Var[T any](parser Parser, p *T, name string, opts ...Option[T])]. *)
Definition Var (parser : Parser) (t : typ) (p : loc) (name : string)
    (opts : list Option_) : Parser :=
  let options := fold_left (fun o apply => apply o) opts zero_options in
  {| fields := <[name := {| value := {| T := t; dst := p |}; opts := options |}]>
                 (fields parser);
     lookup := lookup parser |}.

(** The body of the closure that [Parse] runs for one field, before the
    deferred [recover]. *)
Definition Parse_body `{Host} (parser : Parser) (name : string) (field : field)
    (h : heap) : heap * result :=
  match lookup parser name with
  | Panics p => (h, Panic p)
  | Returns text ok =>
      if ok && is_empty text && nonEmpty (opts field) then
        (h, Err "field is declared but empty: cannot be empty")
      else if ok && is_empty text && skipEmpty (opts field) then
        (h, Ok)
      else if negb ok then
        if required (opts field) then (h, Err "field is required")
        else
          match fallback (opts field) with
          | Some fb => (genericValue_Set (value field) fb h, Ok)
          | None => (h, Ok)
          end
      else genericValue_Parse (value field) text h
  end.

(** The deferred function: a recovered panic becomes the error
    [fmt.Errorf("%v", recovered)]. *)
Definition recover (r : result) : option string :=
  match r with
  | Ok => None
  | Err err => Some err
  | Panic recovered => Some recovered
  end.

(** One iteration of the loop of [Parse]. *)
Definition Parse_field `{Host} (parser : Parser) (name : string) (field : field)
    (h : heap) : heap * option string :=
  let '(h1, r) := Parse_body parser name field h in (h1, recover r).

(** The loop of [Parse] over the fields in the order [range] yields them;
    [errs] is the slice the loop appends to. *)
Fixpoint Parse_loop `{Host} (parser : Parser) (order : list (string * field))
    (errs : list string) (h : heap) : heap * list string :=
  match order with
  | [] => (h, errs)
  | (name, field) :: rest =>
      match Parse_field parser name field h with
      | (h1, Some err) => Parse_loop parser rest (errs ++ [name +:+ ": " +:+ err]) h1
      | (h1, None) => Parse_loop parser rest errs h1
      end
  end.

(** Modelled from the spec: [xerr.MultiErrOrderedFrom] belongs to the
    dependency [github.com/davidmdm/x/xerr], whose source is not part of the
    repository.  It receives the header and the rendered errors, orders the
    errors, and joins them: no error gives [nil]; several give the header,
    a colon, and one line ["\n  - <error>"] per error (spec, sections 4.1
    and 6; [TestOptions], [TestParsePanicRecovery]); a single error gives
    ["<header>: <error>"] ([TestInvalidDestination]).  Each error it is
    handed by [Parse] is ["<name>: <message>"], so the lexical order of the
    errors is the order of the field names wherever the names decide. *)
Definition MultiErrOrderedFrom (msg : string) (errs : list string) : option string :=
  match merge_sort String.le errs with
  | [] => None
  | [err] => Some (msg +:+ ": " +:+ err)
  | sorted => Some (msg +:+ ":" +:+ String.concat EmptyString ((fun err => newline +:+ "  - " +:+ err) <$> sorted))
  end.

(** [func (parser Parser) Parse() error], for the iteration order [order]
    of [parser.fields]. *)
Definition Parse_in `{Host} (parser : Parser) (order : list (string * field))
    (h : heap) : heap * option string :=
  let '(h1, errs) := Parse_loop parser order [] h in
  (h1, MultiErrOrderedFrom "failed to parse variable(s)" errs).

(** Go leaves the iteration order of a map unspecified: a run of [Parse]
    is [Parse_in] at some enumeration of the fields. *)
Definition Parse_run `{Host} (parser : Parser) (h : heap) (out : heap * option string) : Prop :=
  ∃ order, order ≡ₚ map_to_list (fields parser) ∧ Parse_in parser order h = out.

(** [Parse] at the enumeration [map_to_list] gives. *)
Definition Parse `{Host} (parser : Parser) (h : heap) : heap * option string :=
  Parse_in parser (map_to_list (fields parser)) h.

(** [func (parser Parser) MustParse()]: panics with the error of [Parse]. *)
Definition MustParse `{Host} (parser : Parser) (h : heap) : heap * result :=
  match Parse parser h with
  | (h1, Some err) => (h1, Panic err)
  | (h1, None) => (h1, Ok)
  end.

(** ** A host to run the examples on

    [Sample.host] implements a fragment of each grammar, enough to run the
    scenarios of the test file: decimal integers with an optional sign,
    durations made of decimal integers and the units h, m, s, ms, us, ns,
    floats written as decimal integers below 2^53, quoting of texts that
    need no escape, an empty process environment.  No theorem below depends
    on it: they hold for every [Host]. *)

Module Sample.

Definition digit (a : ascii) : option Z :=
  let n := nat_of_ascii a in
  if ((48 <=? n) && (n <=? 57))%nat then Some (Z.of_nat (n - 48)) else None.

Fixpoint digits (s : string) (acc : Z) : option Z :=
  match s with
  | EmptyString => Some acc
  | String a r =>
      match digit a with
      | Some d => digits r (10 * acc + d)
      | None => None
      end
  end.

Definition number (s : string) : option Z :=
  if is_empty s then None else digits s 0.

Definition quoted (s : string) : string := quote +:+ s +:+ quote.

Definition syntax_error (fn text : string) : string :=
  "strconv." +:+ fn +:+ ": parsing " +:+ quoted text +:+ ": invalid syntax".

Definition range_error (fn text : string) : string :=
  "strconv." +:+ fn +:+ ": parsing " +:+ quoted text +:+ ": value out of range".

Definition parse_int (text : string) (base bitSize : Z) : Z + string :=
  let '(neg, body) :=
    match text with
    | String "-" r => (true, r)
    | String "+" r => (false, r)
    | _ => (false, text)
    end in
  match number body with
  | None => inr (syntax_error "ParseInt" text)
  | Some n =>
      let x := if neg : bool then - n else n in
      if (- 2 ^ (bitSize - 1) <=? x) && (x <? 2 ^ (bitSize - 1)) then inl x
      else inr (range_error "ParseInt" text)
  end.

Definition parse_uint (text : string) (base bitSize : Z) : Z + string :=
  match number text with
  | None => inr (syntax_error "ParseUint" text)
  | Some n => if n <? 2 ^ bitSize then inl n else inr (range_error "ParseUint" text)
  end.

Definition parse_float (text : string) (bitSize : Z) : Z + string :=
  match number text with
  | Some n =>
      if n =? 0 then inl 0
      else if n <? 2 ^ 53 then
        let e := Z.log2 n in
        inl ((e + 1023) * 2 ^ 52 + (n * 2 ^ (52 - e) - 2 ^ 52))
      else inr (syntax_error "ParseFloat" text)
  | None => inr (syntax_error "ParseFloat" text)
  end.

Fixpoint duration (s : string) (num : option Z) (total : Z) : option Z :=
  match s with
  | EmptyString => match num with None => Some total | Some _ => None end
  | String a r =>
      match digit a, num with
      | Some d, _ => duration r (Some (10 * default 0 num + d)) total
      | None, None => None
      | None, Some n =>
          match a, r with
          | "h"%char, _ => duration r None (total + n * 3600000000000)
          | "m"%char, String "s" r' => duration r' None (total + n * 1000000)
          | "m"%char, _ => duration r None (total + n * 60000000000)
          | "s"%char, _ => duration r None (total + n * 1000000000)
          | "u"%char, String "s" r' => duration r' None (total + n * 1000)
          | "n"%char, String "s" r' => duration r' None (total + n)
          | _, _ => None
          end
      end
  end.

Definition parse_duration (text : string) : Z + string :=
  match (if is_empty text then None else duration text None 0) with
  | Some d => inl d
  | None => inr ("time: invalid duration " +:+ quoted text)
  end.

Definition is_NaN (bits : Z) : bool := 9218868437227405312 <? bits mod 2 ^ 63.

Definition float_eq (x y : Z) : bool :=
  negb (is_NaN x) && negb (is_NaN y) &&
  ((x =? y) || ((x mod 2 ^ 63 =? 0) && (y mod 2 ^ 63 =? 0))).

#[export] Instance host : Host := {|
  IntSize := 64;
  ParseInt := parse_int;
  ParseUint := parse_uint;
  ParseFloat := parse_float;
  ParseDuration := parse_duration;
  Quote := quoted;
  FloatEq := float_eq;
  LookupEnv := fun _ => (EmptyString, false)
|}.

Definition upper (a : ascii) : ascii :=
  let n := nat_of_ascii a in
  if ((97 <=? n) && (n <=? 122))%nat then ascii_of_nat (n - 32) else a.

Fixpoint ToUpper (s : string) : string :=
  match s with
  | EmptyString => EmptyString
  | String a r => String (upper a) (ToUpper r)
  end.

(** The lookup function of [TestParsePanicRecovery]. *)
Definition capitalized : LookupFunc :=
  fun s =>
    if bool_decide (s = ToUpper s) then Returns s true
    else Panics "lookup key not capitalized".

(** A lookup function backed by a table, as the tests build them. *)
Definition table (entries : list (string * string)) : LookupFunc :=
  fun name =>
    match list_find (fun e => e.1 = name) entries with
    | Some (_, (_, text)) => Returns text true
    | None => Returns EmptyString false
    end.

(** The types of the destinations the tests declare. *)
Definition tstring : typ := TBasic None KString.
Definition tint : typ := TBasic None KInt.

(** [type MyByte uint8]. *)
Definition tMyByte : typ :=
  TBasic (Some {| PkgPath := "main"; Name := "MyByte"; Str := "main.MyByte";
                  UnmarshalText := None; UnmarshalBinary := None |}) KUint8.
Definition tbool : typ := TBasic None KBool.

(** [time.Duration]. *)
Definition tDuration : typ :=
  TBasic (Some {| PkgPath := "time"; Name := "Duration"; Str := "time.Duration";
                  UnmarshalText := None; UnmarshalBinary := None |}) KInt64.

(** [struct{ string }], the destination of [TestInvalidDestination]. *)
Definition tstruct : typ := TBasic None (KOther "struct { string }").

(** [type CapText string] of the test file, whose [UnmarshalText] stores
    the text in upper case. *)
Definition tCapText : typ :=
  TBasic (Some {| PkgPath := "github.com/davidmdm/conf_test"; Name := "CapText";
                  Str := "conf_test.CapText";
                  UnmarshalText := Some (fun _ data => (VString (ToUpper data), Ok));
                  UnmarshalBinary := None |}) KString.

End Sample.

(** ** Vocabulary of the properties *)

(** [h'] has every cell of [h] that [keep] selects, unchanged, and no fewer
    cells. *)
Definition preserves (keep : loc -> Prop) (h h' : heap) : Prop :=
  (length h <= length h')%nat /\
  forall l, (l < length h)%nat -> keep l -> h' !! l = h !! l.

(** A conversion that, run on a cell holding [z], leaves every other
    existing cell alone. *)
Definition confined (p : Value -> string -> heap -> heap * result) (z : val) : Prop :=
  forall c text h h' r,
    p (Cell c) text h = (h', r) -> (c < length h)%nat -> h !! c = Some z ->
    preserves (fun l => l <> c) h h'.

(** [t.Kind() == reflect.Pointer]. *)
Definition is_ptr (t : typ) : bool :=
  match t with
  | TPtr _ => true
  | _ => false
  end.

(** Whether the pointer to a [t] has a custom decoder: what the two type
    assertions of the pointer loop test. *)
Definition decodable (t : typ) : bool :=
  match named_of t ≫= UnmarshalText, named_of t ≫= UnmarshalBinary with
  | None, None => false
  | _, _ => true
  end.

(** No pointer met while unwrapping [t] has a custom decoder. *)
Fixpoint undecoded (t : typ) : bool :=
  match t with
  | TPtr e => negb (decodable e) && undecoded e
  | _ => true
  end.

(** The pointer loop of [parse] alone: the type, value and heap it leaves
    when no decoder takes over. *)
Fixpoint indirect (t : typ) (v : Value) (h : heap) : typ * Value * heap :=
  match t with
  | TPtr e => let '(l, h1) := deref e v h in indirect e (Cell l) h1
  | _ => (t, v, h)
  end.

(** The nested conversion as the specification words it: indirection and
    scalar dispatch only; a sequence or a map is refused. *)
Fixpoint convert_nested `{Host} (t : typ) (v : Value) (text : string) (h : heap)
    : heap * result :=
  match t with
  | TPtr e =>
      let '(l, h1) := deref e v h in
      match named_of e ≫= UnmarshalText with
      | Some unmarshaler => invoke unmarshaler l text h1
      | None =>
          match named_of e ≫= UnmarshalBinary with
          | Some unmarshaler => invoke unmarshaler l text h1
          | None => convert_nested e (Cell l) text h1
          end
      end
  | TBasic named k => parse_basic t named k v text h
  | TSlice _ _ => (h, Err "cannot support deep slices")
  | TMap _ _ _ => (h, Err "cannot support deep maps")
  end.

(** The top-level conversion as the specification words it: elements, keys
    and values go through [convert_nested], which never comes back here. *)
Fixpoint convert_top `{Host} (t : typ) (v : Value) (text : string) (h : heap)
    : heap * result :=
  match t with
  | TPtr e =>
      let '(l, h1) := deref e v h in
      match named_of e ≫= UnmarshalText with
      | Some unmarshaler => invoke unmarshaler l text h1
      | None =>
          match named_of e ≫= UnmarshalBinary with
          | Some unmarshaler => invoke unmarshaler l text h1
          | None => convert_top e (Cell l) text h1
          end
      end
  | TBasic named k => parse_basic t named k v text h
  | TSlice _ e =>
      if elem_is_Uint8 e then
        if bytes_assignable e then Set_ v (byte_slice text) h
        else (h, Panic ("reflect.Set: value of type []uint8 is not assignable to type "
                        +:+ String_ t))
      else if is_empty (TrimSpace text) then Set_ v (VSlice (Some [])) h
      else
        let items := Split text "," in
        match parse_items (fun c subtext => convert_nested e c subtext) (length h) items
                (h ++ replicate (length items) (zero e)) with
        | (h2, Ok) => Set_ v (VSlice (Some (take (length items) (drop (length h) h2)))) h2
        | failed => failed
        end
  | TMap _ tk te =>
      if is_empty (TrimSpace text) then (h, Ok)
      else
        match parse_entries tk te (fun c s => convert_nested tk c s)
                (fun c s => convert_nested te c s) (Split (TrimSpace text) ",") [] h with
        | (h1, inl target) => Set_ v (VMap (Some target)) h1
        | (h1, inr failed) => (h1, failed)
        end
  end.

(** The outcome of every field of one pass, in iteration order: the name
    and the error of the field, if any. *)
Fixpoint Parse_outcomes `{Host} (parser : Parser) (order : list (string * field))
    (h : heap) : list (string * option string) :=
  match order with
  | [] => []
  | (name, field) :: rest =>
      let '(h1, outcome) := Parse_field parser name field h in
      (name, outcome) :: Parse_outcomes parser rest h1
  end.

(** The fields that failed, with their errors. *)
Definition failures (outcomes : list (string * option string)) : list (string * string) :=
  omap (fun '(name, outcome) => (fun err => (name, err)) <$> (outcome : option string)) outcomes.

(** The line of the report for a failed field. *)
Definition line (failure : string * string) : string :=
  failure.1 +:+ ": " +:+ failure.2.

(** The report of several failures as the specification words it. *)
Definition report (failed : list string) : string :=
  "failed to parse variable(s):" +:+
  String.concat EmptyString ((fun l => newline +:+ "  - " +:+ l) <$> failed).

(** [key] is not found by [fn]. *)
Definition misses (key : string) (fn : LookupFunc) : Prop :=
  exists value, fn key = Returns value false.

(** No name of the list starts with another name of the list. *)
Definition prefix_free (names : list string) : Prop :=
  forall a b, a ∈ names -> b ∈ names -> HasPrefix b a = true -> a = b.

(** Whether an entry of a map text has a [=]. *)
Definition has_eq (elem : string) : bool := (Cut elem "=").2.

(** The kinds of value whose [==] is plain equality. *)
Definition exact_key (k : val) : bool :=
  match k with
  | VBool _ | VInt _ | VUint _ | VString _ | VPtr _ => true
  | _ => false
  end.

(** The map built from a list of converted entries. *)
Definition built `{Host} (kvs : list (val * val)) (target : list (val * val)) : list (val * val) :=
  fold_left (fun tgt kv => SetMapIndex tgt kv.1 kv.2) kvs target.

(** One entry that converts: the key and the value are converted in turn,
    each into a fresh zeroed cell, and [k] and [v] are what the cells
    hold. *)
Definition converts `{Host} (tk te : typ) (elem : string) (kv : val * val) : Prop :=
  exists key value hi hk hv,
    Cut elem "=" = (key, value, true) /\
    parse tk (Cell (length hi)) key false (hi ++ [zero tk]) = (hk, Ok) /\
    parse te (Cell (length hk)) value false (hk ++ [zero te]) = (hv, Ok) /\
    hk !! length hi = Some kv.1 /\
    hv !! length hk = Some kv.2.

(** A loop that fails: the entry it stopped at, and what was being
    converted. *)
Definition fails `{Host} (tk te : typ) (elem : string) (h' : heap) (r : result) : Prop :=
  exists key value hi,
    Cut elem "=" = (key, value, true) /\
    ((exists cause,
        parse tk (Cell (length hi)) key false (hi ++ [zero tk]) = (h', Err cause) /\
        r = Err ("failed to parse key: " +:+ key +:+ ": " +:+ cause)) \/
     (exists hk cause,
        parse tk (Cell (length hi)) key false (hi ++ [zero tk]) = (hk, Ok) /\
        parse te (Cell (length hk)) value false (hk ++ [zero te]) = (h', Err cause) /\
        r = Err ("failed to parse value at key: " +:+ key +:+ ": " +:+ cause)) \/
     (exists p,
        parse tk (Cell (length hi)) key false (hi ++ [zero tk]) = (h', Panic p) /\
        r = Panic p) \/
     (exists hk p,
        parse tk (Cell (length hi)) key false (hi ++ [zero tk]) = (hk, Ok) /\
        parse te (Cell (length hk)) value false (hk ++ [zero te]) = (h', Panic p) /\
        r = Panic p)).

(** ** cfg.go: the lookup sources *)

(** More of package [strings], for one-byte separators and cut sets. *)
Module Text.

(** [strings.Join]. *)
Fixpoint Join (l : list string) (sep : string) : string :=
  match l with
  | [] => EmptyString
  | [x] => x
  | x :: rest => x +:+ sep +:+ Join rest sep
  end.

(** [strings.TrimLeft(s, cutset)] for a cut set of one byte. *)
Fixpoint TrimLeftByte (s : string) (c : ascii) : string :=
  match s with
  | EmptyString => EmptyString
  | String a r => if Ascii.eqb a c then TrimLeftByte r c else s
  end.

(** [strings.ReplaceAll(s, old, new)] for [old] and [new] of one byte. *)
Fixpoint ReplaceAll (s : string) (old new : ascii) : string :=
  match s with
  | EmptyString => EmptyString
  | String a r => String (if Ascii.eqb a old then new else a) (ReplaceAll r old new)
  end.

End Text.

Import Text.

(** What [os.ReadFile] gives: the data, an error for which
    [errors.Is(err, os.ErrNotExist)] holds, or another error, with its
    text. *)
Inductive read :=
| Data (data : string)
| NotExist
| Failed (err : string).

(** The functions of the Go standard library and the process state that the
    lookup sources use. *)
Class System := {
  (** [strings.ToLower]. *)
  ToLower : string -> string;
  (** [os.Args[1:]]. *)
  os_Args : list string;
  (** [filepath.IsAbs]. *)
  IsAbs : string -> bool;
  (** [filepath.Join] of two elements. *)
  filepath_Join : string -> string -> string;
  (** [os.ReadFile]. *)
  ReadFile : string -> read
}.

(** The two variables of [CommandLineArgs]: the map [m] from a flag to its
    values and the pending [flag]. *)
Record flags := {
  m : gmap string (list string);
  flag : string
}.

(** [m[key]], nil for a key that is absent. *)
Definition values (m : gmap string (list string)) (key : string) : list string :=
  default [] (m !! key).

(** One iteration of the loop of [CommandLineArgs] over the arguments. *)
Definition CommandLineArgs_step `{System} (st : flags) (arg : string) : flags :=
  if HasPrefix arg "-" then
    let m1 :=
      if negb (is_empty (flag st)) && (length (values (m st) (flag st)) =? 0)%nat
      then <[flag st := ["true"]]> (m st)
      else m st in
    let flag1 := ToLower (TrimLeftByte arg "-") in
    match Cut flag1 "=" with
    | (key, value, true) =>
        {| m := <[key := values m1 key ++ [value]]> m1; flag := EmptyString |}
    | (_, _, false) => {| m := m1; flag := flag1 |}
    end
  else if is_empty (flag st) then st
  else {| m := <[flag st := values (m st) (flag st) ++ [arg]]> (m st);
          flag := EmptyString |}.

(** The loop of [CommandLineArgs]. *)
Definition CommandLineArgs_loop `{System} (args : list string) : flags :=
  fold_left CommandLineArgs_step args {| m := ∅; flag := EmptyString |}.

(** The closure [CommandLineArgs] returns, for the map [m] the loop built. *)
Definition CommandLineArgs_lookup `{System} (m : gmap string (list string)) : LookupFunc :=
  fun name =>
    let name := ReplaceAll (ToLower name) "_" "-" in
    match m !! name with
    | Some value => Returns (Join value ",") true
    | None => Returns (Join [] ",") false
    end.

(** [func CommandLineArgs(args ...string) LookupFunc]. *)
Definition CommandLineArgs `{System} (args : list string) : LookupFunc :=
  let args := if (length args =? 0)%nat then os_Args else args in
  CommandLineArgs_lookup (m (CommandLineArgs_loop args)).

Record FileSystemOptions := {
  Base : string
}.

(** [func FileSystem(opts FileSystemOptions) LookupFunc]. *)
Definition FileSystem `{System} (opts : FileSystemOptions) : LookupFunc :=
  let base := if is_empty (Base opts) then "." else Base opts in
  fun path =>
    let path := if negb (IsAbs path) then filepath_Join base path else path in
    match ReadFile path with
    | Failed err => Panics err
    | NotExist => Returns EmptyString false
    | Data data => Returns data true
    end.

(** [var Environ = MakeParser(os.LookupEnv)]. *)
Definition Environ `{Host} : Parser := MakeParser [Some os_LookupEnv].

(** A system to run the examples on: lower case for ASCII letters, no
    argument on the command line, slash-separated paths, files from a
    table ([unreadable] lists the paths whose read fails).  No theorem
    depends on it. *)
Module SampleSystem.

Definition lower (a : ascii) : ascii :=
  let n := nat_of_ascii a in
  if ((65 <=? n) && (n <=? 90))%nat then ascii_of_nat (n + 32) else a.

Fixpoint to_lower (s : string) : string :=
  match s with
  | EmptyString => EmptyString
  | String a r => String (lower a) (to_lower r)
  end.

Definition read_table (files : list (string * string)) (unreadable : list string)
    (path : string) : read :=
  if bool_decide (path ∈ unreadable) then Failed ("open " +:+ path +:+ ": permission denied")
  else match list_find (fun e => e.1 = path) files with
       | Some (_, (_, data)) => Data data
       | None => NotExist
       end.

Definition system (args : list string) (files : list (string * string))
    (unreadable : list string) : System := {|
  ToLower := to_lower;
  os_Args := args;
  IsAbs := fun path => HasPrefix path "/";
  filepath_Join := fun base path => base +:+ "/" +:+ path;
  ReadFile := read_table files unreadable
|}.

End SampleSystem.

(** ** More vocabulary of the properties *)

(** A type with no pointer in it. *)
Fixpoint pointer_free (t : typ) : bool :=
  match t with
  | TBasic _ _ => true
  | TSlice _ e => pointer_free e
  | TMap _ tk te => pointer_free tk && pointer_free te
  | TPtr _ => false
  end.

(** The destinations of the fields of a pass. *)
Definition destinations (order : list (string * field)) : list loc :=
  (fun nf => dst (value nf.2)) <$> order.

(** A field whose conversion writes its destination only: its type is not a
    pointer and its destination exists. *)
Definition plain_field (h : heap) (f : field) : Prop :=
  is_ptr (T (value f)) = false /\ (dst (value f) < length h)%nat.

(** A flag with its value, as two arguments: [dashes + 1] dashes and the
    name, then the value. *)
Definition flag_args (item : nat * string * string) : list string :=
  [String "-" (String.concat EmptyString (replicate item.1.1 "-") +:+ item.1.2); item.2].

(** A name that can follow the dashes of a flag: it does not start with a
    dash and, once in lower case, is not empty and has no [=]. *)
Definition flag_name `{System} (k : string) : Prop :=
  HasPrefix k "-" = false /\ is_empty (ToLower k) = false /\ has_eq (ToLower k) = false.

(** The values given to [key], in order. *)
Definition values_of `{System} (key : string) (items : list (nat * string * string))
    : list string :=
  omap (fun item : nat * string * string =>
          if bool_decide (ToLower item.1.2 = key) then Some item.2 else None) items.

(** Two runs of a conversion agree: on what is returned and, on success,
    on what is stored. *)
Definition agrees (p : Value -> string -> heap -> heap * result) : Prop :=
  forall c1 c2 text h1 h2 h1' h2' r1 r2,
    (c1 < length h1)%nat -> (c2 < length h2)%nat ->
    p (Cell c1) text h1 = (h1', r1) ->
    p (Cell c2) text h2 = (h2', r2) ->
    r1 = r2 /\ (r1 = Ok -> h1' !! c1 = h2' !! c2).

(** A flag with a value that the loop reads as such: the name is a flag
    name and the value does not start with a dash. *)
Definition flag_item `{System} (item : nat * string * string) : Prop :=
  flag_name item.1.2 /\ HasPrefix item.2 "-" = false.

(** A flag without value, as one argument. *)
Definition switch_arg (dashes : nat) (k : string) : string :=
  String "-" (String.concat EmptyString (replicate dashes "-") +:+ k).

(** The map of the flags after a list of flags with values. *)
Definition add_items `{System} (m0 : gmap string (list string))
    (items : list (nat * string * string)) : gmap string (list string) :=
  fold_left (fun m item => <[ToLower item.1.2 := values m (ToLower item.1.2) ++ [item.2]]> m)
    items m0.

(** What the lookup answers when the values of the key are [vs]. *)
Definition answer (vs : list string) : found :=
  Returns (Join vs ",") (negb (bool_decide (vs = []))).

(** The path [FileSystem] reads for a name. *)
Definition resolved `{System} (opts : FileSystemOptions) (name : string) : string :=
  if IsAbs name then name
  else filepath_Join (if is_empty (Base opts) then "." else Base opts) name.

(** ** Declared types *)

(** A Go type declaration may mention the type it declares ([type P *P],
    [type S []S], [type N []*N]), so the types [reflect] reports form a
    graph.  A type is named here by a number; the table of declarations
    gives its kind and the names of its element and key types.  [defined]
    marks a defined pointer type ([type PC *C]), whose method set is
    empty. *)
Abbreviation tname := nat.

Inductive rtype :=
| RBasic (named : option tinfo) (k : kind)
| RSlice (named : option tinfo) (elem : tname)
| RMap (named : option tinfo) (key elem : tname)
| RPtr (defined : bool) (elem : tname).

Abbreviation decls := (tname -> rtype).

Definition rnamed (r : rtype) : option tinfo :=
  match r with
  | RBasic n _ | RSlice n _ | RMap n _ _ => n
  | RPtr _ _ => None
  end.

(** The zero value of a declared type. *)
Definition rzero (r : rtype) : val :=
  match r with
  | RBasic named k => zero (TBasic named k)
  | RSlice _ _ => VSlice None
  | RMap _ _ _ => VMap None
  | RPtr _ _ => VPtr None
  end.

(** [reflect.New] and the first two statements of the pointer loop, for an
    element type taken from the table. *)
Definition rNew (r : rtype) (h : heap) : loc * heap :=
  (length h, h ++ [rzero r]).

Definition rderef (r : rtype) (v : Value) (h : heap) : loc * heap :=
  match v with
  | Addr l => (l, h)
  | Cell c =>
      match h !! c with
      | Some (VPtr (Some l)) => (l, h)
      | _ => let '(l, h1) := rNew r h in (l, <[c := VPtr (Some l)]> h1)
      end
  end.

(** The loop over the items of the slice case, for conversions that may
    not return. *)
Fixpoint parse_items_decl (parse_elem : Value -> string -> heap -> option (heap * result))
    (base : loc) (items : list string) (h : heap) : option (heap * result) :=
  match items with
  | [] => Some (h, Ok)
  | subtext :: rest =>
      match parse_elem (Cell base) subtext h with
      | Some (h1, Ok) => parse_items_decl parse_elem (S base) rest h1
      | other => other
      end
  end.

(** The loop over the entries of the map case, for conversions that may
    not return. *)
Fixpoint parse_entries_decl `{Host} (rk re : rtype)
    (parse_key parse_elem : Value -> string -> heap -> option (heap * result))
    (elems : list string) (target : list (val * val)) (h : heap)
    : option (heap * (list (val * val) + result)) :=
  match elems with
  | [] => Some (h, inl target)
  | elem :: rest =>
      match Cut elem "=" with
      | (_, _, false) => parse_entries_decl rk re parse_key parse_elem rest target h
      | (key, value, true) =>
          let '(k, h1) := rNew rk h in
          match parse_key (Cell k) key h1 with
          | None => None
          | Some (h2, Err err) =>
              Some (h2, inr (Err ("failed to parse key: " +:+ key +:+ ": " +:+ err)))
          | Some (h2, Panic p) => Some (h2, inr (Panic p))
          | Some (h2, Ok) =>
              let '(v, h3) := rNew re h2 in
              match parse_elem (Cell v) value h3 with
              | None => None
              | Some (h4, Err err) =>
                  Some (h4, inr (Err ("failed to parse value at key: " +:+ key +:+ ": "
                                      +:+ err)))
              | Some (h4, Panic p) => Some (h4, inr (Panic p))
              | Some (h4, Ok) =>
                  parse_entries_decl rk re parse_key parse_elem rest
                    (SetMapIndex target (default (rzero rk) (h4 !! k))
                       (default (rzero re) (h4 !! v))) h4
              end
          end
      end
  end.

(** [parse] on the types of a table of declarations.  One unit of [fuel]
    is spent by each turn of the pointer loop and by each call; [None]
    means that the call has not returned within [fuel]. *)
Fixpoint parse_decl `{Host} (types : decls) (fuel : nat) (n : tname) (v : Value)
    (text : string) (topLevel : bool) (h : heap) : option (heap * result) :=
  match fuel with
  | O => None
  | S fuel =>
      match types n with
      | RPtr defined e =>
          let '(l, h1) := rderef (types e) v h in
          let methods := if defined then None else rnamed (types e) in
          match methods ≫= UnmarshalText with
          | Some unmarshaler => Some (invoke unmarshaler l text h1)
          | None =>
              match methods ≫= UnmarshalBinary with
              | Some unmarshaler => Some (invoke unmarshaler l text h1)
              | None => parse_decl types fuel e (Cell l) text topLevel h1
              end
          end
      | RBasic named k => Some (parse_basic (TBasic named k) named k v text h)
      | RSlice named e =>
          if negb topLevel then Some (h, Err "cannot support deep slices")
          else
            match types e with
            | RBasic ne KUint8 =>
                if bytes_assignable (TBasic ne KUint8) then Some (Set_ v (byte_slice text) h)
                else Some (h, Panic ("reflect.Set: value of type []uint8 is not assignable to type "
                                     +:+ String_ (TSlice named (TBasic ne KUint8))))
            | re =>
                if is_empty (TrimSpace text) then Some (Set_ v (VSlice (Some [])) h)
                else
                  let items := Split text "," in
                  let base := length h in
                  let h1 := h ++ replicate (length items) (rzero re) in
                  match parse_items_decl
                          (fun c subtext => parse_decl types fuel e c subtext false)
                          base items h1 with
                  | Some (h2, Ok) =>
                      Some (Set_ v (VSlice (Some (take (length items) (drop base h2)))) h2)
                  | other => other
                  end
            end
      | RMap _ tk te =>
          if negb topLevel then Some (h, Err "cannot support deep maps")
          else
            let text := TrimSpace text in
            if is_empty text then Some (h, Ok)
            else
              match parse_entries_decl (types tk) (types te)
                      (fun c s => parse_decl types fuel tk c s false)
                      (fun c s => parse_decl types fuel te c s false)
                      (Split text ",") [] h with
              | None => None
              | Some (h1, inl target) => Some (Set_ v (VMap (Some target)) h1)
              | Some (h1, inr failed) => Some (h1, failed)
              end
      end
  end.

(** The type expression [t] read at name [n] of a table. *)
Fixpoint denotes (types : decls) (n : tname) (t : typ) : Prop :=
  match t with
  | TBasic named k => types n = RBasic named k
  | TSlice named e => exists ne, types n = RSlice named ne /\ denotes types ne e
  | TMap named k e =>
      exists nk ne, types n = RMap named nk ne /\ denotes types nk k /\ denotes types ne e
  | TPtr e => exists ne, types n = RPtr false ne /\ denotes types ne e
  end.

(** The number of type constructors on the longest path of [t]. *)
Fixpoint height (t : typ) : nat :=
  match t with
  | TBasic _ _ => 0
  | TSlice _ e | TPtr e => S (height e)
  | TMap _ k e => S (height k `max` height e)
  end.

(** Following [Elem] from [n] leaves the pointer types within [d] steps. *)
Fixpoint unwinds (types : decls) (d : nat) (n : tname) : bool :=
  match types n with
  | RPtr _ e =>
      match d with
      | O => false
      | S d => unwinds types d e
      end
  | _ => true
  end.

(** Tables to run the examples on. *)
Module SampleDecls.

(** [type P *P]: name 0 is [P], every other name is [*P]. *)
Definition self_pointer : decls :=
  fun n => match n with
           | O => RPtr true 0
           | _ => RPtr false 0
           end.

(** [type N []*N]: name 0 is [N], name 1 is [*N], name 2 is [**N]; the
    other names are [string]. *)
Definition nodes : decls :=
  fun n => match n with
           | 0%nat => RSlice (Some {| PkgPath := "main"; Name := "N"; Str := "main.N";
                                      UnmarshalText := None; UnmarshalBinary := None |}) 1
           | 1%nat => RPtr false 0
           | 2%nat => RPtr false 1
           | _ => RBasic None KString
           end.

(** [type PC *CapText]: name 0 is [CapText], name 1 is [PC], name 2 is
    [*PC], name 3 is [*CapText], every other name is [**CapText]. *)
Definition defined_pointer : decls :=
  fun n => match n with
           | 0%nat => RBasic (named_of Sample.tCapText) KString
           | 1%nat => RPtr true 0
           | 2%nat => RPtr false 1
           | 3%nat => RPtr false 0
           | _ => RPtr false 3
           end.

End SampleDecls.

(** A parser, its fields in one order, and a heap for them. *)

Definition run_parser : Parser :=
  MakeParser (H := Sample.host)
    [Some (Sample.table [("count", "42"); ("names", "a,b"); ("blank", EmptyString)])].

Definition run_order : list (string * field) :=
  [("count", {| value := {| T := Sample.tint; dst := 0%nat |}; opts := zero_options |});
   ("names", {| value := {| T := TSlice None Sample.tstring; dst := 1%nat |};
                opts := zero_options |});
   ("level", {| value := {| T := Sample.tint; dst := 2%nat |};
                opts := Default (VInt 3) zero_options |});
   ("debug", {| value := {| T := Sample.tbool; dst := 3%nat |}; opts := zero_options |});
   ("blank", {| value := {| T := Sample.tint; dst := 4%nat |};
                opts := SkipEmpty true zero_options |})].

Definition run_heap : heap :=
  [VInt 0; VSlice None; VInt 0; VBool true; VInt 7; VString "other"].

(** * Properties *)

(** ** Heaps *)

Lemma preserves_refl keep h : preserves keep h h.
Proof. split; [lia | done]. Qed.

Lemma preserves_trans (keep : loc -> Prop) h1 h2 h3 :
  preserves keep h1 h2 -> preserves keep h2 h3 -> preserves keep h1 h3.
Proof.
  intros [Hl1 H1] [Hl2 H2]. split; [lia |].
  intros l Hl Hk. rewrite H2 by (done || lia). by apply H1.
Qed.

Lemma preserves_weaken (keep keep' : loc -> Prop) h h' :
  (forall l, (l < length h)%nat -> keep' l -> keep l) ->
  preserves keep h h' -> preserves keep' h h'.
Proof. intros Hk [Hl H]. split; [done |]. intros l ? ?. apply H; auto. Qed.

Lemma preserves_insert (keep : loc -> Prop) h c x :
  ~ keep c -> preserves keep h (<[c := x]> h).
Proof.
  intros Hc. split; [by rewrite length_insert |].
  intros l _ Hk. apply list_lookup_insert_ne. by intros ->.
Qed.

Lemma preserves_app keep h extra : preserves keep h (h ++ extra).
Proof.
  split; [rewrite length_app; lia |].
  intros l Hl _. by apply lookup_app_l.
Qed.

Lemma preserves_step (keep keep' : loc -> Prop) h1 h2 h3 :
  preserves keep h1 h2 -> preserves keep' h2 h3 ->
  (forall l, (l < length h1)%nat -> keep l -> keep' l) ->
  preserves keep h1 h3.
Proof.
  intros [Hl1 H1] [Hl2 H2] Hk. split; [lia |].
  intros l ? ?. rewrite H2 by (auto; lia). by apply H1.
Qed.

Lemma preserves_fresh (keep : loc -> Prop) h z h' :
  preserves (fun l => l <> length h) (h ++ [z]) h' -> preserves keep h h'.
Proof.
  intros [Hl Hs]. rewrite length_app in Hl. simpl in Hl. split; [lia |].
  intros l ? _. rewrite Hs; [by apply lookup_app_l | rewrite length_app; lia | lia].
Qed.

Lemma preserves_insert_self h c x : preserves (fun l => l <> c) h (<[c := x]> h).
Proof. apply preserves_insert. tauto. Qed.

(** ** What a conversion writes *)

Section Frame.
Context `{Host}.

Lemma Set_Cell c x h : Set_ (Cell c) x h = (<[c := x]> h, Ok).
Proof. reflexivity. Qed.

Lemma parse_items_frame p z items :
  confined p z ->
  forall base h h' r,
    parse_items p base items h = (h', r) ->
    (base + length items <= length h)%nat ->
    (forall i, (i < length items)%nat -> h !! (base + i)%nat = Some z) ->
    preserves (fun l => (l < base)%nat \/ (base + length items <= l)%nat) h h'.
Proof.
  intros Hp. induction items as [|subtext items IH]; intros base h h' r Hrun Hlen Hz.
  - simpl in Hrun. injection Hrun as <- _. apply preserves_refl.
  - simpl in Hrun, Hlen.
    destruct (p (Cell base) subtext h) as [h1 r1] eqn:Hstep.
    assert (preserves (fun l => l <> base) h h1) as Hfr.
    { eapply Hp; [done | lia |]. rewrite <- (Hz 0%nat) by (simpl; lia). f_equal. lia. }
    assert (preserves (fun l => (l < base)%nat \/ (base + S (length items) <= l)%nat) h h1) as Hfr'.
    { eapply preserves_weaken; [| exact Hfr]. intros; simpl in *; lia. }
    destruct r1; try (injection Hrun as <- _; exact Hfr').
    destruct Hfr as [Hl1 Hsame].
    eapply preserves_step; [exact Hfr' | eapply (IH (S base) h1 h' r Hrun) |].
    + lia.
    + intros i Hi. rewrite Hsame by lia.
      rewrite <- (Hz (S i)) by (simpl; lia). f_equal. lia.
    + intros l Hl Hk. simpl in *. lia.
Qed.

Lemma parse_entries_frame tk te pk pe elems :
  confined pk (zero tk) -> confined pe (zero te) ->
  forall target h h' res,
    parse_entries tk te pk pe elems target h = (h', res) ->
    preserves (fun _ => True) h h'.
Proof.
  intros Hk He. induction elems as [|elem elems IH]; intros target h h' res Hrun.
  - simpl in Hrun. injection Hrun as <- _. apply preserves_refl.
  - simpl in Hrun. destruct (Cut elem "=") as [[key value] [|]]; [| by eapply IH].
    destruct (pk (Cell (length h)) key (h ++ [zero tk])) as [h2 r2] eqn:Hkey.
    assert (preserves (fun _ => True) h h2) as Hfr2.
    { eapply preserves_fresh, Hk; [exact Hkey | |].
      - rewrite length_app; simpl; lia.
      - by rewrite lookup_app_r, Nat.sub_diag. }
    destruct r2; try (injection Hrun as <- _; exact Hfr2).
    destruct (pe (Cell (length h2)) value (h2 ++ [zero te])) as [h4 r4] eqn:Hval.
    assert (preserves (fun _ => True) h2 h4) as Hfr4.
    { eapply preserves_fresh, He; [exact Hval | |].
      - rewrite length_app; simpl; lia.
      - by rewrite lookup_app_r, Nat.sub_diag. }
    pose proof (preserves_trans _ _ _ _ Hfr2 Hfr4) as Hfr.
    destruct r4; try (injection Hrun as <- _; exact Hfr).
    eapply preserves_trans; [exact Hfr | by eapply IH].
Qed.

Lemma parse_TPtr e v text topLevel h :
  parse (TPtr e) v text topLevel h =
  let '(l, h1) := deref e v h in
  match named_of e ≫= UnmarshalText with
  | Some unmarshaler => invoke unmarshaler l text h1
  | None =>
      match named_of e ≫= UnmarshalBinary with
      | Some unmarshaler => invoke unmarshaler l text h1
      | None => parse e (Cell l) text topLevel h1
      end
  end.
Proof. reflexivity. Qed.

Lemma invoke_frame d l text h h' r :
  invoke d l text h = (h', r) -> preserves (fun c => c <> l) h h'.
Proof.
  unfold invoke. destruct (h !! l) as [x|].
  - destruct (d x text) as [x' r']. intros [= <- _]. apply preserves_insert_self.
  - intros [= <- _]. apply preserves_refl.
Qed.

Lemma parse_basic_frame t named k c text h h' r :
  parse_basic t named k (Cell c) text h = (h', r) ->
  preserves (fun l => l <> c) h h' /\ (r <> Ok -> h' = h).
Proof.
  unfold parse_basic. intros Hrun.
  repeat match type of Hrun with
  | context [match ?x with _ => _ end] => destruct x
  end;
  rewrite ?Set_Cell in Hrun; injection Hrun as <- <-;
  (split; [first [apply preserves_refl | apply preserves_insert_self] | done]).
Qed.

Lemma parse_frame t :
  forall c text topLevel h h' r,
    parse t (Cell c) text topLevel h = (h', r) ->
    (c < length h)%nat ->
    is_ptr t = false \/ h !! c = Some (zero t) ->
    preserves (fun l => l <> c) h h' /\
    (r <> Ok -> is_ptr t = false -> h' !! c = h !! c).
Proof.
  induction t as [named k | named e IHe | named tk IHk te IHe | e IHe];
    intros c text topLevel h h' r Hrun Hc Hz.
  - simpl in Hrun. apply parse_basic_frame in Hrun as [Hfr Hfail].
    split; [done |]. intros Hr _. by rewrite Hfail.
  - simpl in Hrun. destruct topLevel; simpl in Hrun.
    2:{ injection Hrun as <- <-. split; [apply preserves_refl | done]. }
    destruct (elem_is_Uint8 e).
    { destruct (bytes_assignable e); injection Hrun as <- <-;
        (split; [first [apply preserves_refl | apply preserves_insert_self] | done]). }
    destruct (is_empty (TrimSpace text)).
    { injection Hrun as <- <-. split; [apply preserves_insert_self | done]. }
    set (items := Split text ",") in *.
    set (h1 := h ++ replicate (length items) (zero e)) in *.
    destruct (parse_items _ _ _ _) as [h2 r2] eqn:Hitems.
    assert (length h1 = (length h + length items)%nat) as Hlen1.
    { unfold h1. by rewrite length_app, length_replicate. }
    apply (parse_items_frame _ (zero e)) in Hitems.
    + assert (preserves (fun _ => True) h h2) as Hold.
      { eapply preserves_step; [apply preserves_app | exact Hitems |].
        intros; simpl; lia. }
      destruct r2.
      * injection Hrun as <- <-. split; [| done].
        eapply preserves_step; [| apply preserves_insert_self | done].
        eapply preserves_weaken; [| exact Hold]. done.
      * injection Hrun as <- <-. split.
        -- eapply preserves_weaken; [| exact Hold]. done.
        -- intros _ _. by apply Hold.
      * injection Hrun as <- <-. split.
        -- eapply preserves_weaken; [| exact Hold]. done.
        -- intros _ _. by apply Hold.
    + intros c' text' h0 h0' r0 Hrun0 Hc0 Hz0.
      eapply IHe; [exact Hrun0 | done | by right].
    + lia.
    + intros i Hi. unfold h1. rewrite lookup_app_r by lia.
      apply lookup_replicate_2. lia.
  - simpl in Hrun. destruct topLevel; simpl in Hrun.
    2:{ injection Hrun as <- <-. split; [apply preserves_refl | done]. }
    destruct (is_empty (TrimSpace text)).
    { injection Hrun as <- <-. split; [apply preserves_refl | done]. }
    destruct (parse_entries _ _ _ _ _ _ _) as [h1 res] eqn:Hentries.
    apply parse_entries_frame in Hentries.
    + destruct res as [target | failed].
      * injection Hrun as <- <-. split; [| done].
        eapply preserves_step; [| apply preserves_insert_self | done].
        eapply preserves_weaken; [| exact Hentries]. done.
      * injection Hrun as <- <-. split.
        -- eapply preserves_weaken; [| exact Hentries]. done.
        -- intros _ _. by apply Hentries.
    + intros c' text' h0 h0' r0 Hrun0 Hc0 Hz0.
      eapply IHk; [exact Hrun0 | done | by right].
    + intros c' text' h0 h0' r0 Hrun0 Hc0 Hz0.
      eapply IHe; [exact Hrun0 | done | by right].
  - destruct Hz as [[=] | Hz]. split; [| intros _ [=]].
    rewrite parse_TPtr in Hrun. unfold deref, New in Hrun.
    rewrite Hz in Hrun. simpl in Hrun.
    set (h1 := <[c := VPtr (Some (length h))]> (h ++ [zero e])) in *.
    assert (preserves (fun l => l <> c) h h1) as Hfr1.
    { eapply preserves_step; [apply preserves_app | apply preserves_insert_self | done]. }
    assert (length h1 = S (length h)) as Hlen1.
    { unfold h1. rewrite length_insert, length_app. simpl. lia. }
    assert (h1 !! length h = Some (zero e)) as Hfresh.
    { unfold h1. rewrite list_lookup_insert_ne by lia.
      by rewrite lookup_app_r, Nat.sub_diag. }
    assert (preserves (fun l => l <> length h) h1 h') as Hfr2.
    { destruct (named_of e ≫= UnmarshalText) as [d|].
      { by eapply invoke_frame. }
      destruct (named_of e ≫= UnmarshalBinary) as [d|].
      { by eapply invoke_frame. }
      eapply IHe; [exact Hrun | lia | by right]. }
    eapply preserves_step; [exact Hfr1 | exact Hfr2 |]. intros; simpl; lia.
Qed.
End Frame.

(** ** C1: what a failed conversion leaves behind *)

Section Failure.
Context `{Host}.

Lemma decodable_false e :
  decodable e = false ->
  named_of e ≫= UnmarshalText = None /\ named_of e ≫= UnmarshalBinary = None.
Proof.
  unfold decodable.
  destruct (named_of e ≫= UnmarshalText), (named_of e ≫= UnmarshalBinary); done.
Qed.

(** Without a decoder on the way, [parse] is its pointer loop followed by
    the switch on a type that is not a pointer. *)
Lemma parse_indirect t :
  forall v text topLevel h t' v' h1,
    undecoded t = true ->
    indirect t v h = (t', v', h1) ->
    parse t v text topLevel h = parse t' v' text topLevel h1 /\ is_ptr t' = false.
Proof.
  induction t as [named k | named e _ | named tk _ te _ | e IHe];
    intros v text topLevel h t' v' h1 Hund Hind;
    try (injection Hind as <- <- <-; done).
  simpl in Hund. apply andb_true_iff in Hund as [Hdec Hund].
  apply negb_true_iff, decodable_false in Hdec as [Htext Hbin].
  rewrite parse_TPtr. simpl in Hind.
  destruct (deref e v h) as [l h0]. rewrite Htext, Hbin. by apply IHe.
Qed.

(** C1, as amended.  When the conversion of a field fails (with an error or
    a panic) and no custom decoder is reached through the pointers of the
    destination, the heap is the one pointer indirection left: every cell that existed then is unchanged, so nothing
    was assigned to the destination.  For a destination that is not a
    pointer, indirection writes nothing: the heap is the one before the
    call.  (Indirection stores fresh storage in the nil pointers it meets,
    before any text is parsed.) *)
Theorem genericValue_Parse_failure_frame (v : genericValue) (text : string)
    (h h' h1 : heap) (r : result) (t' : typ) (c : loc) :
  undecoded (TPtr (T v)) = true ->
  indirect (TPtr (T v)) (Addr (dst v)) h = (t', Cell c, h1) ->
  (c < length h1)%nat ->
  genericValue_Parse v text h = (h', r) ->
  r <> Ok ->
  (forall l, (l < length h1)%nat -> h' !! l = h1 !! l) /\
  (is_ptr (T v) = false -> h1 = h /\ c = dst v).
Proof.
  intros Hund Hind Hc Hrun Hr. unfold genericValue_Parse in Hrun.
  destruct (parse_indirect _ _ text true _ _ _ _ Hund Hind) as [Heq Hnp].
  rewrite Heq in Hrun. apply parse_frame in Hrun as [[_ Hfr] Hdst]; [| done | by left].
  split.
  - intros l Hl. destruct (decide (l = c)) as [-> | Hne]; [by apply Hdst | by apply Hfr].
  - intros Hnp'. simpl in Hind. destruct (T v); try done; by injection Hind as <- <- <-.
Qed.

(** On a destination that is a nil pointer, the call stores fresh storage
    in the destination whatever the text. *)
Lemma genericValue_Parse_nil_pointer (v : genericValue) (e : typ) (text : string)
    (h h' : heap) (r : result) :
  T v = TPtr e ->
  h !! dst v = Some (VPtr None) ->
  genericValue_Parse v text h = (h', r) ->
  h' !! dst v = Some (VPtr (Some (length h))).
Proof.
  intros HT Hnil Hrun. unfold genericValue_Parse in Hrun. rewrite HT in Hrun.
  pose proof (lookup_lt_Some _ _ _ Hnil) as Hlt.
  change (parse (TPtr (TPtr e)) (Addr (dst v)) text true h)
    with (parse (TPtr e) (Cell (dst v)) text true h) in Hrun.
  rewrite parse_TPtr in Hrun. unfold deref, New in Hrun. rewrite Hnil in Hrun.
  set (h1 := <[dst v := VPtr (Some (length h))]> (h ++ [zero e])) in *.
  assert (h1 !! dst v = Some (VPtr (Some (length h)))) as Hset.
  { unfold h1. apply list_lookup_insert_eq. rewrite length_app. lia. }
  assert (length h1 = S (length h)) as Hlen1.
  { unfold h1. rewrite length_insert, length_app. simpl. lia. }
  assert (preserves (fun l => l <> length h) h1 h') as [_ Hfr].
  { destruct (named_of e ≫= UnmarshalText) as [d|]; [by eapply invoke_frame |].
    destruct (named_of e ≫= UnmarshalBinary) as [d|]; [by eapply invoke_frame |].
    eapply parse_frame; [exact Hrun | lia | right].
    unfold h1. rewrite list_lookup_insert_ne by lia.
    by rewrite lookup_app_r, Nat.sub_diag. }
  rewrite Hfr; [done | lia | lia].
Qed.

End Failure.





Lemma genericValue_Parse_failure_frame_witness :
  let v := {| T := TSlice None Sample.tbool; dst := 0%nat |} in
  let h := [VSlice None] in
  let out := genericValue_Parse (H := Sample.host) v "T,3" h in
  out.2 <> Ok /\
  (forall l, (l < length h)%nat -> out.1 !! l = h !! l) /\
  (is_ptr (T v) = false -> h = h /\ 0%nat = dst v).
Proof.
  intros v h out.
  assert (out.2 <> Ok) as Hr by (vm_compute; discriminate).
  split; [exact Hr |].
  apply (genericValue_Parse_failure_frame (H := Sample.host) v "T,3" h out.1 h out.2
           (TSlice None Sample.tbool) 0%nat).
  - reflexivity.
  - reflexivity.
  - simpl. lia.
  - apply surjective_pairing.
  - exact Hr.
Defined.

(** A decoder that writes to its receiver and then fails leaves what it
    wrote: the engine does not undo it. *)
Example failure_after_decoder_write :
  let tPartial :=
    TBasic (Some {| PkgPath := "main"; Name := "Partial"; Str := "main.Partial";
                    UnmarshalText := Some (fun _ data => (VString data, Err "bad input"));
                    UnmarshalBinary := None |}) KString in
  genericValue_Parse (H := Sample.host) {| T := tPartial; dst := 0%nat |} "half"
    [VString EmptyString]
  = ([VString "half"], Err "bad input").
Proof. reflexivity. Qed.

(** C1 as stated fails on a pointer-typed destination: parsing ["3"] into a
    nil [*bool] fails and leaves the destination pointing to fresh
    storage. *)
Lemma failure_mutates_nil_pointer_destination :
  ~ (forall (H : Host) (v : genericValue) (text : string) (h h' : heap) (r : result),
       (dst v < length h)%nat ->
       genericValue_Parse v text h = (h', r) ->
       r <> Ok ->
       h' !! dst v = h !! dst v).
Proof.
  intros Hclaim.
  pose (v := {| T := TPtr Sample.tbool; dst := 0%nat |}).
  pose (out := genericValue_Parse (H := Sample.host) v "3" [VPtr None]).
  assert (out.2 <> Ok) as Hr by (vm_compute; discriminate).
  pose proof (Hclaim Sample.host v "3" [VPtr None] out.1 out.2
                ltac:(simpl; lia) (surjective_pairing _) Hr) as Hsame.
  vm_compute in Hsame. discriminate Hsame.
Qed.

(** ** C2: a map destination and a blank text *)

Section BlankMap.
Context `{Host}.

(** On a text that trims to nothing the map case returns [nil] before it
    builds or assigns anything: the heap is the one before the call. *)
Lemma parse_map_blank_text named tk te v text h :
  is_empty (TrimSpace text) = true ->
  parse (TMap named tk te) v text true h = (h, Ok).
Proof. intros Hblank. simpl. by rewrite Hblank. Qed.

(** The slice case, on the same text, assigns an empty slice. *)
Lemma parse_slice_blank_text named e c text h :
  elem_is_Uint8 e = false ->
  is_empty (TrimSpace text) = true ->
  parse (TSlice named e) (Cell c) text true h = (<[c := VSlice (Some [])]> h, Ok).
Proof. intros He Hblank. simpl. by rewrite He, Hblank. Qed.

End BlankMap.

(** C2 at the failing input: a [map[string]int] destination that holds
    [{"a": 1}] and a text of two spaces.  The call succeeds and the
    destination still holds the entry: no empty map is stored. *)
Example Parse_map_blank_text_keeps_entries :
  genericValue_Parse (H := Sample.host)
    {| T := TMap None Sample.tstring Sample.tint; dst := 0%nat |} "  "
    [VMap (Some [(VString "a", VInt 1)])]
  = ([VMap (Some [(VString "a", VInt 1)])], Ok).
Proof. reflexivity. Qed.

(** The sibling path: a [[]string] destination that holds [["a"]] is
    emptied by the same text. *)
Example Parse_slice_blank_text_empties :
  genericValue_Parse (H := Sample.host)
    {| T := TSlice None Sample.tstring; dst := 0%nat |} "  "
    [VSlice (Some [VString "a"])]
  = ([VSlice (Some [])], Ok).
Proof. reflexivity. Qed.

(** ** C9: custom decoders *)

Section Decoders.
Context `{Host}.





End Decoders.


(** A decoder reached through a nil pointer that is a slice element: the
    element type is a struct, yet the decoder parses it, and the nested
    flag is not consulted. *)
Example parse_decoder_in_slice :
  let tCustom :=
    TBasic (Some {| PkgPath := "github.com/davidmdm/conf_test"; Name := "Custom";
                    Str := "conf_test.Custom";
                    UnmarshalText := Some (fun _ data => (VOpaque data, Ok));
                    UnmarshalBinary := Some (fun _ _ => (VOpaque "binary", Err "unused")) |})
           (KOther "struct { Value interface {} }") in
  genericValue_Parse (H := Sample.host)
    {| T := TSlice None (TPtr tCustom); dst := 0%nat |} "[1],2" [VSlice None]
  = ([VSlice (Some [VPtr (Some 3%nat); VPtr (Some 4%nat)]);
      VPtr (Some 3%nat); VPtr (Some 4%nat); VOpaque "[1]"; VOpaque "2"], Ok).
Proof. reflexivity. Qed.

(** ** C8: one composite level *)

Section Nesting.
Context `{Host}.

Lemma parse_items_ext p q base items h :
  (forall c text h0, p c text h0 = q c text h0) ->
  parse_items p base items h = parse_items q base items h.
Proof.
  intros Hpq. revert base h. induction items as [|subtext items IH]; intros base h; [done |].
  simpl. rewrite Hpq. destruct (q (Cell base) subtext h) as [h1 [| |]]; auto.
Qed.

Lemma parse_entries_ext tk te pk qk pe qe elems target h :
  (forall c text h0, pk c text h0 = qk c text h0) ->
  (forall c text h0, pe c text h0 = qe c text h0) ->
  parse_entries tk te pk pe elems target h = parse_entries tk te qk qe elems target h.
Proof.
  intros Hk He. revert target h.
  induction elems as [|elem elems IH]; intros target h; [done |].
  simpl. destruct (Cut elem "=") as [[key value] [|]]; [| done].
  rewrite Hk. destruct (qk _ key _) as [h2 [| |]]; try done.
  rewrite He. destruct (qe _ value _) as [h4 [| |]]; try done.
Qed.

Lemma parse_nested t :
  forall v text h, parse t v text false h = convert_nested t v text h.
Proof.
  induction t as [named k | named e _ | named tk _ te _ | e IHe]; intros v text h;
    try reflexivity.
  rewrite parse_TPtr. simpl. destruct (deref e v h) as [l h1].
  by rewrite IHe.
Qed.

Lemma parse_top t :
  forall v text h, parse t v text true h = convert_top t v text h.
Proof.
  induction t as [named k | named e _ | named tk _ te _ | e IHe]; intros v text h.
  - reflexivity.
  - simpl. destruct (elem_is_Uint8 e); [done |].
    destruct (is_empty (TrimSpace text)); [done |].
    by rewrite (parse_items_ext _ (fun c subtext => convert_nested e c subtext))
      by (intros; apply parse_nested).
  - simpl. destruct (is_empty (TrimSpace text)); [done |].
    by rewrite (parse_entries_ext _ _ _ (fun c s => convert_nested tk c s)
                  _ (fun c s => convert_nested te c s))
      by (intros; apply parse_nested).
  - rewrite parse_TPtr. simpl. destruct (deref e v h) as [l h1].
    by rewrite IHe.
Qed.

Lemma parse_items_decl_total p q base items h :
  (forall c text h0, p c text h0 = Some (q c text h0)) ->
  parse_items_decl p base items h = Some (parse_items q base items h).
Proof.
  intros Hpq. revert base h. induction items as [|subtext items IH]; intros base h; [done |].
  simpl. rewrite Hpq. destruct (q (Cell base) subtext h) as [h1 [| |]]; auto.
Qed.

Lemma parse_entries_decl_total rk re tk te pk qk pe qe elems target h :
  rzero rk = zero tk -> rzero re = zero te ->
  (forall c text h0, pk c text h0 = Some (qk c text h0)) ->
  (forall c text h0, pe c text h0 = Some (qe c text h0)) ->
  parse_entries_decl rk re pk pe elems target h
  = Some (parse_entries tk te qk qe elems target h).
Proof.
  intros Hzk Hze Hk He. revert target h.
  induction elems as [|elem elems IH]; intros target h; [done |].
  simpl. destruct (Cut elem "=") as [[key value] [|]]; [| done].
  unfold rNew, New. rewrite Hzk, Hk. destruct (qk _ key _) as [h2 [| |]]; try done.
  rewrite Hze, He. destruct (qe _ value _) as [h4 [| |]]; try done.
Qed.

Lemma denotes_rzero types n t : denotes types n t -> rzero (types n) = zero t.
Proof.
  destruct t as [named k | named e | named tk te | e]; simpl.
  - by intros ->.
  - by intros (ne & -> & _).
  - by intros (nk & ne & -> & _).
  - by intros (ne & -> & _).
Qed.

Lemma denotes_rnamed types n t : denotes types n t -> rnamed (types n) = named_of t.
Proof.
  destruct t as [named k | named e | named tk te | e]; simpl.
  - by intros ->.
  - by intros (ne & -> & _).
  - by intros (nk & ne & -> & _).
  - by intros (ne & -> & _).
Qed.

Lemma denotes_rderef types n t v h : denotes types n t -> rderef (types n) v h = deref t v h.
Proof.
  intros Hd. unfold rderef, deref, rNew, New. by rewrite (denotes_rzero _ _ _ Hd).
Qed.

(** On a type expression the conversion returns, and returns what [parse]
    gives. *)
Lemma parse_decl_parse types t :
  forall n fuel v text topLevel h,
    denotes types n t -> (height t < fuel)%nat ->
    parse_decl types fuel n v text topLevel h = Some (parse t v text topLevel h).
Proof.
  induction t as [named k | named e IHe | named tk IHk te IHe | e IHe];
    intros n fuel v text topLevel h Hd Hfuel; (destruct fuel as [|fuel]; [simpl in Hfuel; lia |]).
  - simpl in Hd. simpl. by rewrite Hd.
  - destruct Hd as (ne & Hn & Hde). simpl in Hfuel. cbn [parse_decl]. rewrite Hn.
    cbn [parse]. destruct (negb topLevel); [done |].
    assert (forall c subtext h0,
              parse_decl types fuel ne c subtext false h0 = Some (parse e c subtext false h0))
      as Hitems by (intros; apply IHe; [done | lia]).
    pose proof (denotes_rzero _ _ _ Hde) as Hz.
    destruct e as [nb kb | ns es | nm km em | ep]; simpl in Hde.
    + rewrite Hde in *.
      destruct kb; simpl;
        try (by destruct nb);
        (destruct (is_empty (TrimSpace text)); [done |]);
        rewrite (parse_items_decl_total _ _ _ _ _ Hitems);
        by destruct (parse_items _ _ _ _) as [h2 [| |]].
    + destruct Hde as (n2 & Hn2 & _). rewrite Hn2 in *. simpl.
      destruct (is_empty (TrimSpace text)); [done |].
      rewrite (parse_items_decl_total _ _ _ _ _ Hitems).
      by destruct (parse_items _ _ _ _) as [h2 [| |]].
    + destruct Hde as (n2 & n3 & Hn2 & _). rewrite Hn2 in *. simpl.
      destruct (is_empty (TrimSpace text)); [done |].
      rewrite (parse_items_decl_total _ _ _ _ _ Hitems).
      by destruct (parse_items _ _ _ _) as [h2 [| |]].
    + destruct Hde as (n2 & Hn2 & _). rewrite Hn2 in *. simpl.
      destruct (is_empty (TrimSpace text)); [done |].
      rewrite (parse_items_decl_total _ _ _ _ _ Hitems).
      by destruct (parse_items _ _ _ _) as [h2 [| |]].
  - destruct Hd as (nk & ne & Hn & Hdk & Hde). simpl in Hfuel. cbn [parse_decl]. rewrite Hn.
    cbn [parse]. destruct (negb topLevel); [done |]. cbv zeta.
    destruct (is_empty (TrimSpace text)); [done |].
    rewrite (parse_entries_decl_total _ _ tk te _ (fun c s => parse tk c s false)
               _ (fun c s => parse te c s false)).
    + by destruct (parse_entries _ _ _ _ _ _ _) as [h1 [target | failed]].
    + by apply denotes_rzero.
    + by apply denotes_rzero.
    + intros. apply IHk; [done | lia].
    + intros. apply IHe; [done | lia].
  - destruct Hd as (ne & Hn & Hde). simpl in Hfuel. cbn [parse_decl]. rewrite Hn.
    rewrite parse_TPtr. rewrite (denotes_rderef _ _ _ _ _ Hde).
    destruct (deref e v h) as [l h1]. rewrite (denotes_rnamed _ _ _ Hde).
    destruct (named_of e ≫= UnmarshalText); [done |].
    destruct (named_of e ≫= UnmarshalBinary); [done |].
    apply IHe; [done | lia].
Qed.

Lemma parse_items_decl_returns p base items h :
  (forall c text h0, is_Some (p c text h0)) ->
  is_Some (parse_items_decl p base items h).
Proof.
  intros Hp. revert base h. induction items as [|subtext items IH]; intros base h; [done |].
  simpl. destruct (Hp (Cell base) subtext h) as [[h1 r] ->]. destruct r; auto.
Qed.

Lemma parse_entries_decl_returns rk re pk pe elems target h :
  (forall c text h0, is_Some (pk c text h0)) ->
  (forall c text h0, is_Some (pe c text h0)) ->
  is_Some (parse_entries_decl rk re pk pe elems target h).
Proof.
  intros Hk He. revert target h.
  induction elems as [|elem elems IH]; intros target h; [done |].
  simpl. destruct (Cut elem "=") as [[key value] [|]]; [| done].
  destruct (Hk (Cell (length h)) key (h ++ [rzero rk])) as [[h2 r2] ->].
  destruct r2; try done.
  destruct (He (Cell (length h2)) value (h2 ++ [rzero re])) as [[h4 r4] ->].
  destruct r4; try done.
Qed.

(** A nested call returns once the pointer chain of its type ends. *)
Lemma parse_decl_nested_returns types d :
  forall n fuel v text h,
    unwinds types d n = true -> (d < fuel)%nat ->
    is_Some (parse_decl types fuel n v text false h).
Proof.
  induction d as [|d IH]; intros n fuel v text h Hu Hfuel;
    (destruct fuel as [|fuel]; [lia |]); simpl in Hu; simpl.
  - destruct (types n) as [named k | named e | named tk te | defined e]; done.
  - destruct (types n) as [named k | named e | named tk te | defined e]; try done.
    destruct (rderef (types e) v h) as [l h1].
    destruct (_ ≫= UnmarshalText); [done |]. destruct (_ ≫= UnmarshalBinary); [done |].
    apply IH; [done | lia].
Qed.

(** A call returns when no chain of pointer types of the table is longer
    than [d]. *)
Lemma parse_decl_returns types d :
  (forall m, unwinds types d m = true) ->
  forall k n fuel v text topLevel h,
    unwinds types k n = true -> (k + d + 1 < fuel)%nat ->
    is_Some (parse_decl types fuel n v text topLevel h).
Proof.
  intros Hall. induction k as [|k IH]; intros n fuel v text topLevel h Hu Hfuel;
    (destruct fuel as [|fuel]; [lia |]); simpl in Hu.
  - cbn [parse_decl].
    destruct (types n) as [named kd | named e | named tk te | defined e]; try done.
    + destruct (negb topLevel); [done |].
      assert (is_Some
                (if is_empty (TrimSpace text) then Some (Set_ v (VSlice (Some [])) h)
                 else
                   match parse_items_decl
                           (fun c subtext => parse_decl types fuel e c subtext false)
                           (length h) (Split text ",")
                           (h ++ replicate (length (Split text ",")) (rzero (types e))) with
                   | Some (h2, Ok) =>
                       Some (Set_ v (VSlice (Some (take (length (Split text ","))
                                                      (drop (length h) h2)))) h2)
                   | other => other
                   end)) as Hloop.
      { destruct (is_empty (TrimSpace text)); [done |].
        destruct (parse_items_decl_returns
                    (fun c subtext => parse_decl types fuel e c subtext false)
                    (length h) (Split text ",")
                    (h ++ replicate (length (Split text ",")) (rzero (types e))))
          as [[h2 r2] ->].
        - intros. apply (parse_decl_nested_returns types d); [done | lia].
        - by destruct r2. }
      destruct (types e) as [ne ke | | |]; try exact Hloop.
      destruct ke; try exact Hloop. by destruct (bytes_assignable _).
    + destruct (negb topLevel); [done |]. cbv zeta.
      destruct (is_empty (TrimSpace text)); [done |].
      destruct (parse_entries_decl_returns (types tk) (types te)
                  (fun c s => parse_decl types fuel tk c s false)
                  (fun c s => parse_decl types fuel te c s false)
                  (Split (TrimSpace text) ",") [] h) as [[h1 [target | failed]] ->]; try done.
      * intros. apply (parse_decl_nested_returns types d); [done | lia].
      * intros. apply (parse_decl_nested_returns types d); [done | lia].
  - destruct (types n) as [named kd | named e | named tk te | defined e] eqn:Hn.
    + cbn [parse_decl]. by rewrite Hn.
    + apply (IH n (S fuel)); [| lia]. destruct k; simpl; by rewrite Hn.
    + apply (IH n (S fuel)); [| lia]. destruct k; simpl; by rewrite Hn.
    + cbn [parse_decl]. rewrite Hn. destruct (rderef (types e) v h) as [l h1].
      destruct (_ ≫= UnmarshalText); [done |]. destruct (_ ≫= UnmarshalBinary); [done |].
      apply IH; [done | lia].
Qed.

Lemma parse_items_decl_mono p q base items h out :
  (forall c text h0 o, p c text h0 = Some o -> q c text h0 = Some o) ->
  parse_items_decl p base items h = Some out ->
  parse_items_decl q base items h = Some out.
Proof.
  intros Hpq. revert base h. induction items as [|subtext items IH]; intros base h; [done |].
  simpl. destruct (p (Cell base) subtext h) as [[h1 r]|] eqn:Hp; [| done].
  rewrite (Hpq _ _ _ _ Hp). destruct r; auto.
Qed.

Lemma parse_entries_decl_mono rk re pk qk pe qe elems target h out :
  (forall c text h0 o, pk c text h0 = Some o -> qk c text h0 = Some o) ->
  (forall c text h0 o, pe c text h0 = Some o -> qe c text h0 = Some o) ->
  parse_entries_decl rk re pk pe elems target h = Some out ->
  parse_entries_decl rk re qk qe elems target h = Some out.
Proof.
  intros Hk He. revert target h.
  induction elems as [|elem elems IH]; intros target h; [done |].
  simpl. destruct (Cut elem "=") as [[key value] [|]]; [| by apply IH].
  destruct (pk _ key _) as [[h2 r2]|] eqn:Hpk; [| done].
  rewrite (Hk _ _ _ _ Hpk). destruct r2; try done.
  destruct (pe _ value _) as [[h4 r4]|] eqn:Hpe; [| done].
  rewrite (He _ _ _ _ Hpe). destruct r4; try done. apply IH.
Qed.

(** A call that has returned within [fuel] returns the same with more. *)
Lemma parse_decl_S types fuel :
  forall n v text topLevel h out,
    parse_decl types fuel n v text topLevel h = Some out ->
    parse_decl types (S fuel) n v text topLevel h = Some out.
Proof.
  induction fuel as [|fuel IH]; intros n v text topLevel h out Hrun; [done |].
  cbn [parse_decl] in Hrun. remember (S fuel) as fuel1 eqn:Hfuel1 in *. cbn [parse_decl].
  destruct (types n) as [named kd | named e | named tk te | defined e]; [done | | |].
  - destruct (negb topLevel); [done |].
    assert (forall h1,
              match parse_items_decl
                      (fun c subtext => parse_decl types fuel e c subtext false)
                      (length h) (Split text ",") h1 with
              | Some (h2, Ok) =>
                  Some (Set_ v (VSlice (Some (take (length (Split text ","))
                                                 (drop (length h) h2)))) h2)
              | other => other
              end = Some out ->
              match parse_items_decl
                      (fun c subtext => parse_decl types fuel1 e c subtext false)
                      (length h) (Split text ",") h1 with
              | Some (h2, Ok) =>
                  Some (Set_ v (VSlice (Some (take (length (Split text ","))
                                                 (drop (length h) h2)))) h2)
              | other => other
              end = Some out) as Hloop.
    { intros h1 Hr.
      destruct (parse_items_decl (fun c subtext => parse_decl types fuel e c subtext false)
                  _ _ h1) as [o|] eqn:Hitems; [| done].
      by rewrite (parse_items_decl_mono _
                    (fun c subtext => parse_decl types fuel1 e c subtext false)
                    _ _ _ _ (fun c s h0 o => IH e c s false h0 o) Hitems). }
    destruct (types e) as [ne ke | | |];
      try (destruct (is_empty (TrimSpace text)); [done | by apply Hloop]).
    destruct ke; try (destruct (is_empty (TrimSpace text)); [done | by apply Hloop]).
    exact Hrun.
  - destruct (negb topLevel); [done |]. cbv zeta in *.
    destruct (is_empty (TrimSpace text)); [done |].
    destruct (parse_entries_decl _ _ (fun c s => parse_decl types fuel tk c s false) _ _ _ _)
      as [o|] eqn:Hentries; [| done].
    by rewrite (parse_entries_decl_mono _ _ _
                  (fun c s => parse_decl types fuel1 tk c s false) _
                  (fun c s => parse_decl types fuel1 te c s false)
                  _ _ _ _ (fun c s h0 o => IH tk c s false h0 o)
                  (fun c s h0 o => IH te c s false h0 o) Hentries).
  - destruct (rderef (types e) v h) as [l h1].
    destruct (_ ≫= UnmarshalText); [done |]. destruct (_ ≫= UnmarshalBinary); [done |].
    by apply IH.
Qed.

Lemma parse_decl_le types fuel fuel' n v text topLevel h out :
  (fuel <= fuel')%nat ->
  parse_decl types fuel n v text topLevel h = Some out ->
  parse_decl types fuel' n v text topLevel h = Some out.
Proof.
  induction 1 as [|fuel' _ IH]; [done |]. intros Hrun. by apply parse_decl_S, IH.
Qed.

(** On [type P *P] every turn of the pointer loop finds a nil pointer,
    allocates, and goes on with the new cell. *)
Lemma parse_self_pointer_loops fuel :
  forall l text topLevel (h : heap),
    h !! l = Some (VPtr None) ->
    parse_decl SampleDecls.self_pointer fuel 0 (Cell l) text topLevel h = None.
Proof.
  induction fuel as [|fuel IH]; intros l text topLevel h Hl; [done |].
  cbn [parse_decl]. simpl. rewrite Hl. simpl. apply IH.
  pose proof (lookup_lt_Some _ _ _ Hl) as Hlt.
  rewrite list_lookup_insert_ne by lia.
  by rewrite lookup_app_r, Nat.sub_diag by lia.
Qed.

(** C8, as amended.  [parse_decl] is [parse] on the types of a table of
    declarations, where a type may be declared in terms of itself, with
    fuel for the turns of the pointer loop.  When no chain of pointer types
    of the table is longer than [d], every call returns, and returns the
    same result with any fuel above [2 * d + 1].  On a type expression the
    result is the one [parse] gives.  A nested call ([topLevel] false) on a
    sequence or map type fails with the unsupported-nesting error, the heap
    untouched, whatever the table.  On type expressions a nested call is
    [convert_nested]: pointer indirection, decoders and the scalar cases,
    with a sequence or map type refused; a top-level call is
    [convert_top], whose sequence and map cases convert elements, keys and
    values by [convert_nested] only: composite dispatch happens at the top
    level and nowhere below. *)
Theorem parse_one_composite_level :
  (forall (types : decls) d,
     (forall m, unwinds types d m = true) ->
     forall n v text topLevel h,
     exists out, forall fuel, (2 * d + 1 < fuel)%nat ->
       parse_decl types fuel n v text topLevel h = Some out) /\
  (forall (types : decls) n t,
     denotes types n t ->
     forall fuel v text topLevel h, (height t < fuel)%nat ->
       parse_decl types fuel n v text topLevel h = Some (parse t v text topLevel h)) /\
  (forall (types : decls) fuel n v text h,
     (forall named e, types n = RSlice named e ->
        parse_decl types (S fuel) n v text false h
        = Some (h, Err "cannot support deep slices")) /\
     (forall named tk te, types n = RMap named tk te ->
        parse_decl types (S fuel) n v text false h
        = Some (h, Err "cannot support deep maps"))) /\
  (forall t v text h, parse t v text false h = convert_nested t v text h) /\
  (forall t v text h, parse t v text true h = convert_top t v text h) /\
  (forall named e v text h,
     parse (TSlice named e) v text false h = (h, Err "cannot support deep slices")) /\
  (forall named tk te v text h,
     parse (TMap named tk te) v text false h = (h, Err "cannot support deep maps")) /\
  (forall t v text h t' v' h1,
     undecoded t = true -> indirect t v h = (t', v', h1) ->
     (forall named e, t' = TSlice named e ->
        parse t v text false h = (h1, Err "cannot support deep slices")) /\
     (forall named tk te, t' = TMap named tk te ->
        parse t v text false h = (h1, Err "cannot support deep maps"))).
Proof.
  split.
  { intros types d Hall n v text topLevel h.
    destruct (parse_decl_returns types d Hall d n (2 * d + 2)%nat v text topLevel h
                (Hall n) ltac:(lia)) as [out Hout].
    exists out. intros fuel Hfuel. eapply parse_decl_le; [| exact Hout]. lia. }
  split; [intros; by apply parse_decl_parse |].
  split.
  { intros types fuel n v text h. split.
    - intros named e Hn. simpl. by rewrite Hn.
    - intros named tk te Hn. simpl. by rewrite Hn. }
  split; [intros; apply parse_nested |].
  split; [intros; apply parse_top |].
  split; [done |]. split; [done |].
  intros t v text h t' v' h1 Hund Hind.
  destruct (parse_indirect t v text false h t' v' h1 Hund Hind) as [-> _].
  split; by intros; subst.
Qed.

End Nesting.

(** [type N []*N] has no chain of more than two pointer types: a [**N]
    destination is converted with any fuel above five. *)
Lemma parse_one_composite_level_witness :
  exists out, forall fuel, (2 * 2 + 1 < fuel)%nat ->
    parse_decl (H := Sample.host) SampleDecls.nodes fuel 2 (Cell 0%nat) "a,b" true
      [VPtr None] = Some out.
Proof.
  apply (proj1 (parse_one_composite_level (H := Sample.host)) SampleDecls.nodes 2%nat).
  intros m. do 3 (destruct m as [|m]; [reflexivity |]). reflexivity.
Defined.

(** C8 as stated fails on [type P *P]: for a destination [p P] that is
    nil, every turn of the pointer loop allocates a new nil [P] and goes
    on with it, so the call made by [genericValue.Parse] does not return,
    whatever the fuel. *)
Lemma parse_self_pointer_never_returns :
  ~ (forall (H : Host) (types : decls) (n : tname) (v : Value) (text : string)
            (topLevel : bool) (h : heap),
       exists fuel out, parse_decl types fuel n v text topLevel h = Some out).
Proof.
  intros Hclaim.
  destruct (Hclaim Sample.host SampleDecls.self_pointer 1%nat (Addr 0%nat) "1" true
              [VPtr None]) as (fuel & out & Hrun).
  destruct fuel as [|fuel]; [done |]. cbn [parse_decl] in Hrun. simpl in Hrun.
  by rewrite parse_self_pointer_loops in Hrun.
Qed.

(** A defined pointer type has no methods: through [var pc PC] the decoder
    of [CapText] is not called, through [var p *CapText] it is. *)
Example parse_decl_defined_pointer :
  parse_decl (H := Sample.host) SampleDecls.defined_pointer 4 2 (Addr 0%nat) "abc" true
    [VPtr None]
  = Some ([VPtr (Some 1%nat); VString "abc"], Ok) /\
  parse_decl (H := Sample.host) SampleDecls.defined_pointer 4 4 (Addr 0%nat) "abc" true
    [VPtr None]
  = Some ([VPtr (Some 1%nat); VString "ABC"], Ok).
Proof. split; reflexivity. Qed.

(** Types declared in terms of themselves without a pointer cycle are
    converted: [type N []*N] fails on its elements, which are sequences one
    level down. *)
Example parse_decl_nodes :
  parse_decl (H := Sample.host) SampleDecls.nodes 4 1 (Addr 0%nat) "a,b" true [VSlice None]
  = Some ([VSlice None; VPtr (Some 3%nat); VPtr None; VSlice None],
          Err "cannot support deep slices").
Proof. reflexivity. Qed.

(** A slice of slices, a slice of maps and a map of slices fail at the top
    level on a text that has elements. *)
Example parse_slice_of_slices :
  genericValue_Parse (H := Sample.host)
    {| T := TSlice None (TSlice None Sample.tstring); dst := 0%nat |} "a,b" [VSlice None]
  = ([VSlice None; VSlice None; VSlice None], Err "cannot support deep slices").
Proof. reflexivity. Qed.

Example parse_map_of_slices :
  genericValue_Parse (H := Sample.host)
    {| T := TMap None Sample.tstring (TPtr (TSlice None Sample.tint)); dst := 0%nat |}
    "k=1" [VMap None]
  = ([VMap None; VString "k"; VPtr (Some 3%nat); VSlice None],
     Err "failed to parse value at key: k: cannot support deep slices").
Proof. reflexivity. Qed.

(** ** C3: the presence and empty-value policy *)

Section Policy.
Context `{Host}.

(** C3.  One field of a pass, by what the lookup returns.  Found with an
    empty text: the empty-value error under [nonEmpty]; otherwise, under
    [skipEmpty], success with the heap untouched; otherwise the empty text
    is converted.  Not found: the missing-required error under [required];
    otherwise the fallback, when there is one, is stored in the
    destination; otherwise the heap is untouched; both succeed.  Found with
    a text that is not empty: the text is converted. *)
Theorem Parse_field_policy (parser : Parser) (name : string) (f : field) (h : heap) :
  (lookup parser name = Returns EmptyString true ->
     (nonEmpty (opts f) = true ->
        Parse_field parser name f h
        = (h, Some "field is declared but empty: cannot be empty")) /\
     (nonEmpty (opts f) = false -> skipEmpty (opts f) = true ->
        Parse_field parser name f h = (h, None)) /\
     (nonEmpty (opts f) = false -> skipEmpty (opts f) = false ->
        Parse_field parser name f h
        = ((genericValue_Parse (value f) EmptyString h).1,
           recover (genericValue_Parse (value f) EmptyString h).2))) /\
  (forall text, lookup parser name = Returns text false ->
     (required (opts f) = true ->
        Parse_field parser name f h = (h, Some "field is required")) /\
     (required (opts f) = false ->
        forall fb, fallback (opts f) = Some fb ->
        Parse_field parser name f h = (<[dst (value f) := fb]> h, None)) /\
     (required (opts f) = false -> fallback (opts f) = None ->
        Parse_field parser name f h = (h, None))) /\
  (forall text, lookup parser name = Returns text true -> text <> EmptyString ->
     Parse_field parser name f h
     = ((genericValue_Parse (value f) text h).1,
        recover (genericValue_Parse (value f) text h).2)).
Proof.
  unfold Parse_field, Parse_body. split; [| split].
  - intros ->. simpl. split; [| split].
    + intros ->. done.
    + intros -> ->. done.
    + intros -> ->. by destruct (genericValue_Parse _ _ _).
  - intros text ->. simpl. split; [| split].
    + intros ->. done.
    + intros -> fb ->. done.
    + intros -> ->. done.
  - intros text -> Hne. destruct text as [|a text]; [done |]. simpl.
    by destruct (genericValue_Parse _ _ _).
Qed.

End Policy.

(** [TestVar], for the destinations the sample host can parse: an [int], a
    [uint], a [bool], a duration, a [string], a [[]string] and a
    [map[string]int]. *)
Example Parse_TestVar :
  let lookups := Sample.table [("i", "-1"); ("ui", "1"); ("b", "T"); ("d", "5m");
                               ("s", "hello"); ("ss", "hello,world"); ("mapint", "x=3,y=1")] in
  let p0 := MakeParser (H := Sample.host) [Some lookups] in
  let p1 := Var p0 Sample.tint 0%nat "i" [] in
  let p2 := Var p1 (TBasic None KUint) 1%nat "ui" [] in
  let p3 := Var p2 Sample.tbool 2%nat "b" [] in
  let p4 := Var p3 Sample.tDuration 3%nat "d" [] in
  let p5 := Var p4 Sample.tstring 4%nat "s" [] in
  let p6 := Var p5 (TSlice None Sample.tstring) 5%nat "ss" [] in
  let p7 := Var p6 (TMap None Sample.tstring Sample.tint) 6%nat "mapint" [] in
  let h := [VInt 0; VUint 0; VBool false; VInt 0; VString EmptyString; VSlice None; VMap None] in
  let out := Parse (H := Sample.host) p7 h in
  out.2 = None /\
  take 7 out.1 =
    [VInt (-1); VUint 1; VBool true; VInt (5 * 60 * 1000000000); VString "hello";
     VSlice (Some [VString "hello"; VString "world"]);
     VMap (Some [(VString "x", VInt 3); (VString "y", VInt 1)])].
Proof. vm_compute. split; reflexivity. Qed.

(** [TestOptions]: a required field that is absent, a non-empty field that
    is present and empty, a non-empty field that is absent, and a field
    that would not parse but is skipped when empty. *)
Example Parse_TestOptions :
  let lookups := Sample.table [("nonEmpty", EmptyString); ("skipEmpty", EmptyString)] in
  let p0 := MakeParser (H := Sample.host) [Some lookups] in
  let p1 := Var p0 Sample.tstring 0%nat "required" [Required true] in
  let p2 := Var p1 Sample.tstring 1%nat "nonEmpty" [NonEmpty true] in
  let p3 := Var p2 Sample.tstring 2%nat "emptynonpresent" [NonEmpty true] in
  let p4 := Var p3 Sample.tint 3%nat "skipEmpty" [SkipEmpty true] in
  let h := [VString "r"; VString "n"; VString "e"; VInt 7] in
  Parse (H := Sample.host) p4 h
  = (h, Some (report ["nonEmpty: field is declared but empty: cannot be empty";
                      "required: field is required"])).
Proof. vm_compute. reflexivity. Qed.

(** ** C5: faults stay with their field *)

Section Isolation.
Context `{Host}.

Lemma Parse_loop_app parser pre post errs h :
  Parse_loop parser (pre ++ post) errs h =
  let '(h1, errs1) := Parse_loop parser pre errs h in Parse_loop parser post errs1 h1.
Proof.
  revert errs h. induction pre as [|[name f] pre IH]; intros errs h; [done |].
  simpl. destruct (Parse_field parser name f h) as [h1 [err|]]; apply IH.
Qed.

Lemma Parse_outcomes_names parser order h :
  (Parse_outcomes parser order h).*1 = order.*1.
Proof.
  revert h. induction order as [|[name f] order IH]; intros h; [done |].
  simpl. destruct (Parse_field parser name f h) as [h1 outcome]. simpl. by rewrite IH.
Qed.

(** The errors the loop collects are the lines of the failed fields, in
    iteration order. *)
Lemma Parse_loop_failures parser order errs h :
  (Parse_loop parser order errs h).2
  = errs ++ (line <$> failures (Parse_outcomes parser order h)).
Proof.
  revert errs h. induction order as [|[name f] order IH]; intros errs h.
  - simpl. by rewrite app_nil_r.
  - simpl. destruct (Parse_field parser name f h) as [h1 [err|]]; rewrite IH.
    + unfold failures. simpl. by rewrite <- app_assoc.
    + done.
Qed.

(** C5.  Every field of the pass gets an outcome.  A panic of the lookup
    and a panic of the conversion, as any panic of the body run for a
    field, are the error of the field they occur in.  Whatever happens in a field, the loop goes on with the fields
    after it, on the heap that field left. *)
Theorem Parse_isolates_faults (parser : Parser) (order : list (string * field))
    (h : heap) :
  (Parse_outcomes parser order h).*1 = order.*1 /\
  (forall name f h0 p,
     lookup parser name = Panics p -> Parse_field parser name f h0 = (h0, Some p)) /\
  (forall name f h0 text h1 p,
     lookup parser name = Returns text true -> text <> EmptyString ->
     genericValue_Parse (value f) text h0 = (h1, Panic p) ->
     Parse_field parser name f h0 = (h1, Some p)) /\
  (forall name f h0 h1 p,
     Parse_body parser name f h0 = (h1, Panic p) ->
     Parse_field parser name f h0 = (h1, Some p)) /\
  (forall pre name f post,
     order = pre ++ (name, f) :: post ->
     Parse_loop parser order [] h =
     let '(h1, errs1) := Parse_loop parser pre [] h in
     let '(h2, outcome) := Parse_field parser name f h1 in
     Parse_loop parser post
       (errs1 ++ match outcome with Some err => [name +:+ ": " +:+ err] | None => [] end)
       h2).
Proof.
  split; [apply Parse_outcomes_names |]. split; [| split; [| split]].
  - intros name f h0 p Hp. unfold Parse_field, Parse_body. by rewrite Hp.
  - intros name f h0 text h1 p Hl Hne Hrun. unfold Parse_field, Parse_body.
    rewrite Hl. destruct text as [|a text]; [done |]. simpl. by rewrite Hrun.
  - intros name f h0 h1 p Hrun. unfold Parse_field. by rewrite Hrun.
  - intros pre name f post ->. rewrite Parse_loop_app.
    destruct (Parse_loop parser pre [] h) as [h1 errs1]. simpl.
    destruct (Parse_field parser name f h1) as [h2 [err|]]; [done |].
    by rewrite app_nil_r.
Qed.

End Isolation.

(** [TestParsePanicRecovery]: the lookup panics on the two names that are
    not capitalized; the third field is parsed. *)
Example Parse_TestParsePanicRecovery :
  let p0 := MakeParser (H := Sample.host) [Some Sample.capitalized] in
  let p1 := Var p0 Sample.tstring 0%nat "GOOD" [] in
  let p2 := Var p1 Sample.tstring 0%nat "bad" [] in
  let p3 := Var p2 Sample.tstring 0%nat "lower" [] in
  Parse (H := Sample.host) p3 [VString EmptyString]
  = ([VString "GOOD"], Some (report ["bad: lookup key not capitalized";
                                     "lower: lookup key not capitalized"])).
Proof. vm_compute. reflexivity. Qed.

(** The scenario of the specification: the lookup panics for ["bad"] and
    returns for ["GOOD"]; only ["bad"] is reported and ["GOOD"] is parsed,
    in either iteration order. *)
Example Parse_bad_good :
  let p0 := MakeParser (H := Sample.host) [Some Sample.capitalized] in
  let good := {| value := {| T := Sample.tstring; dst := 0%nat |}; opts := zero_options |} in
  let bad := {| value := {| T := Sample.tstring; dst := 1%nat |}; opts := zero_options |} in
  let h := [VString EmptyString; VString EmptyString] in
  let out := ([VString "GOOD"; VString EmptyString],
              Some "failed to parse variable(s): bad: lookup key not capitalized") in
  Parse_in (H := Sample.host) p0 [("bad", bad); ("GOOD", good)] h = out /\
  Parse_in (H := Sample.host) p0 [("GOOD", good); ("bad", bad)] h = out.
Proof. split; vm_compute; reflexivity. Qed.

(** ** C4: the aggregated report *)

Section Strings_order.

Lemma append_cons a s x : String a s +:+ x = String a (s +:+ x).
Proof. reflexivity. Qed.

(** Two texts of which neither starts with the other compare the same
    whatever is appended to them. *)
Lemma compare_append a :
  forall b x y,
    HasPrefix b a = false -> HasPrefix a b = false ->
    String.compare (a +:+ x) (b +:+ y) = String.compare a b.
Proof.
  induction a as [|ca a IH]; intros [|cb b] x y Hab Hba; try done.
  rewrite !append_cons. simpl in *.
  destruct (Ascii.compare ca cb) eqn:Hc; [| done..].
  apply Ascii.compare_eq_iff in Hc as ->.
  rewrite Ascii.eqb_refl in Hab, Hba. by apply IH.
Qed.

Lemma le_append a b x y :
  HasPrefix b a = false -> HasPrefix a b = false ->
  String.le (a +:+ x) (b +:+ y) -> String.le a b.
Proof.
  intros Hab Hba. unfold String.le, String.leb. by rewrite compare_append.
Qed.

(** Lines in order have their names in order, when no name starts with
    another. *)
Lemma Sorted_lines_names (failed : list (string * string)) :
  prefix_free failed.*1 ->
  Sorted String.le (line <$> failed) -> Sorted String.le failed.*1.
Proof.
  induction failed as [|f failed IH]; intros Hfree Hsorted; [constructor |].
  rewrite fmap_cons in Hsorted. apply Sorted_inv in Hsorted as [Hsorted Hhd].
  rewrite fmap_cons. constructor.
  - apply IH; [| done]. intros a b Ha Hb. apply Hfree; by right.
  - destruct failed as [|g failed]; [constructor |].
    rewrite fmap_cons in Hhd. apply HdRel_inv in Hhd. rewrite fmap_cons. constructor.
    destruct (decide (f.1 = g.1)) as [-> | Hne]; [done |].
    eapply le_append; [| | exact Hhd].
    + destruct (HasPrefix g.1 f.1) eqn:Hp; [| done]. exfalso. apply Hne.
      apply Hfree; [left | right; left | done].
    + destruct (HasPrefix f.1 g.1) eqn:Hp; [| done]. exfalso. apply Hne. symmetry.
      apply Hfree; [right; left | left | done].
Qed.

End Strings_order.

Section Report.
Context `{Host}.

Lemma merge_sort_Permutation_eq (errs errs' : list string) :
  errs ≡ₚ errs' -> merge_sort String.le errs = merge_sort String.le errs'.
Proof.
  intros Hperm. apply (Sorted_unique String.le); try apply Sorted_merge_sort; try apply _.
  by rewrite !merge_sort_Permutation.
Qed.

(** The helper returns [nil] exactly on no error. *)
Lemma MultiErrOrderedFrom_None msg errs :
  MultiErrOrderedFrom msg errs = None <-> errs = [].
Proof.
  unfold MultiErrOrderedFrom. split.
  - intros Hnone. apply Permutation_nil_r. rewrite <- (merge_sort_Permutation String.le errs).
    destruct (merge_sort String.le errs) as [|e [|e' rest]]; done.
  - intros ->. done.
Qed.

Lemma MultiErrOrderedFrom_Permutation msg errs errs' :
  errs ≡ₚ errs' -> MultiErrOrderedFrom msg errs = MultiErrOrderedFrom msg errs'.
Proof. intros Hperm. unfold MultiErrOrderedFrom. by rewrite (merge_sort_Permutation_eq _ _ Hperm). Qed.

Lemma MultiErrOrderedFrom_single msg err :
  MultiErrOrderedFrom msg [err] = Some (msg +:+ ": " +:+ err).
Proof. reflexivity. Qed.

Lemma MultiErrOrderedFrom_several errs :
  (2 <= length errs)%nat ->
  MultiErrOrderedFrom "failed to parse variable(s)" errs
  = Some (report (merge_sort String.le errs)).
Proof.
  intros Hlen. unfold MultiErrOrderedFrom.
  pose proof (Permutation_length (merge_sort_Permutation String.le errs)) as Hl.
  destruct (merge_sort String.le errs) as [|e [|e' rest]]; simpl in Hl; [lia | lia |].
  reflexivity.
Qed.

Lemma Parse_in_failures parser order h :
  (Parse_in parser order h).2
  = MultiErrOrderedFrom "failed to parse variable(s)"
      (line <$> failures (Parse_outcomes parser order h)).
Proof.
  unfold Parse_in. pose proof (Parse_loop_failures parser order [] h) as Hl.
  destruct (Parse_loop parser order [] h) as [h1 errs]. simpl in *. by rewrite Hl.
Qed.

(** C4, as amended.  A pass returns [nil] exactly when no field failed.
    When one field failed the error is the header, a colon and a space,
    and the line ["<name>: <message>"] of the field.  When several failed
    it is the header, a colon, and ["\n  - <name>: <message>"] for each
    failed field, the lines in lexical order, which is the order of the
    field names when no failed name starts with another.  The error depends
    on the failed fields and their messages only, not on the order in which
    the fields were registered or visited. *)
Theorem Parse_in_report (parser : Parser) (order : list (string * field)) (h : heap) :
  let failed := failures (Parse_outcomes parser order h) in
  let err := (Parse_in parser order h).2 in
  (err = None <-> failed = []) /\
  (forall f, failed = [f] ->
     err = Some ("failed to parse variable(s): " +:+ line f)) /\
  ((2 <= length failed)%nat ->
     exists sorted,
       sorted ≡ₚ failed /\
       Sorted String.le (line <$> sorted) /\
       (prefix_free failed.*1 -> Sorted String.le sorted.*1) /\
       err = Some (report (line <$> sorted))) /\
  (forall parser' order' h',
     failures (Parse_outcomes parser' order' h') ≡ₚ failed ->
     (Parse_in parser' order' h').2 = err).
Proof.
  intros failed err. unfold err. rewrite Parse_in_failures. fold failed.
  split; [| split; [| split]].
  - rewrite MultiErrOrderedFrom_None. split; [| by intros ->].
    intros Hnil. by apply fmap_nil_inv in Hnil.
  - intros f ->. done.
  - intros Hlen.
    pose proof (merge_sort_Permutation String.le (line <$> failed)) as Hperm.
    apply Permutation_map_inv in Hperm as (sorted & Hsorted & Hperm').
    exists sorted. split; [done |]. split; [| split].
    + change (map line sorted) with (line <$> sorted) in Hsorted. rewrite <- Hsorted.
      apply Sorted_merge_sort; apply _.
    + intros Hfree. apply Sorted_lines_names.
      * intros a b Ha Hb. apply Hfree; by rewrite Hperm'.
      * change (map line sorted) with (line <$> sorted) in Hsorted. rewrite <- Hsorted.
        apply Sorted_merge_sort; apply _.
    + rewrite MultiErrOrderedFrom_several by (by rewrite length_fmap).
      by rewrite Hsorted.
  - intros parser' order' h' Hperm. rewrite Parse_in_failures.
    apply MultiErrOrderedFrom_Permutation. by rewrite Hperm.
Qed.

End Report.

(** The fields of a parser do not record the order of registration. *)
Lemma Var_comm parser t1 p1 name1 opts1 t2 p2 name2 opts2 :
  name1 <> name2 ->
  Var (Var parser t1 p1 name1 opts1) t2 p2 name2 opts2
  = Var (Var parser t2 p2 name2 opts2) t1 p1 name1 opts1.
Proof. intros Hne. unfold Var. simpl. f_equal. by apply insert_insert_ne. Qed.

Lemma Parse_run_Parse `{Host} parser h : Parse_run parser h (Parse parser h).
Proof. by exists (map_to_list (fields parser)). Qed.

(** [TestInvalidDestination]: one field fails; the error has no line
    break. *)
Example Parse_TestInvalidDestination :
  let p0 := MakeParser (H := Sample.host) [Some (fun _ => Returns "VALUE" true)] in
  let p1 := Var p0 Sample.tstruct 0%nat "NAME" [] in
  Parse (H := Sample.host) p1 [VOpaque EmptyString]
  = ([VOpaque EmptyString],
     Some "failed to parse variable(s): NAME: destination type not supported: struct { string }").
Proof. vm_compute. reflexivity. Qed.

(** C4 as stated fails when exactly one field fails: the error is not the
    header followed by one ["\n  - "] line. *)
Lemma single_failure_has_no_list :
  ~ (forall (H : Host) (parser : Parser) (order : list (string * field)) (h : heap),
       let failed := failures (Parse_outcomes parser order h) in
       failed <> [] ->
       exists sorted,
         sorted ≡ₚ failed /\ (Parse_in parser order h).2 = Some (report (line <$> sorted))).
Proof.
  intros Hclaim.
  pose (f := {| value := {| T := Sample.tstruct; dst := 0%nat |}; opts := zero_options |}).
  destruct (Hclaim Sample.host (MakeParser (H := Sample.host) [Some (fun _ => Returns "VALUE" true)])
              [("NAME", f)] [VOpaque EmptyString]) as (sorted & Hperm & Herr).
  { vm_compute. discriminate. }
  apply Permutation_singleton_r in Hperm. subst sorted.
  vm_compute in Herr. discriminate Herr.
Qed.

(** Two failed fields, registered as ["b"] then ["a"] or the other way
    round, are reported as ["a"] then ["b"]. *)
Example Parse_b_then_a :
  let p0 := MakeParser (H := Sample.host) [Some (fun _ => Returns "x" true)] in
  let fa := {| value := {| T := Sample.tint; dst := 0%nat |}; opts := zero_options |} in
  let fb := {| value := {| T := Sample.tbool; dst := 1%nat |}; opts := zero_options |} in
  let h := [VInt 0; VBool false] in
  let err := Some (report
    ["a: strconv.ParseInt: parsing " +:+ Sample.quoted "x" +:+ ": invalid syntax";
     "b: strconv.ParseBool: parsing " +:+ Sample.quoted "x" +:+ ": invalid syntax"]) in
  Parse_in (H := Sample.host) p0 [("b", fb); ("a", fa)] h = (h, err) /\
  Parse_in (H := Sample.host) p0 [("a", fa); ("b", fb)] h = (h, err) /\
  Parse (H := Sample.host) (Var (Var p0 Sample.tbool 1%nat "b" []) Sample.tint 0%nat "a" []) h
  = (h, err).
Proof. repeat split; vm_compute; reflexivity. Qed.

(** The lines are ordered as texts: a name that starts with another name
    comes first when what follows sorts before the colon. *)
Example Parse_lines_order :
  MultiErrOrderedFrom "failed to parse variable(s)" ["A: field is required"; "A1: field is required"]
  = Some (report ["A1: field is required"; "A: field is required"]).
Proof. vm_compute. reflexivity. Qed.

(** ** C10: the sources of a parser *)

Section Sources.
Context `{Host}.

Lemma non_nil_omap funcs : non_nil funcs = omap id funcs.
Proof. induction funcs as [|[fn|] funcs IH]; simpl; by rewrite ?IH. Qed.

Lemma non_nil_Some fns : non_nil (Some <$> fns) = fns.
Proof. induction fns as [|fn fns IH]; [done |]. rewrite fmap_cons. simpl. by rewrite IH. Qed.

Lemma joinLookupFuncs_loop_found pre fn post key value value0 ok0 :
  Forall (misses key) pre ->
  fn key = Returns value true ->
  joinLookupFuncs_loop (pre ++ fn :: post) key value0 ok0 = Returns value true.
Proof.
  intros Hpre Hfn. revert value0 ok0.
  induction Hpre as [|g pre [v Hg] _ IH]; intros value0 ok0; simpl.
  - by rewrite Hfn.
  - rewrite Hg. apply IH.
Qed.

Lemma joinLookupFuncs_loop_missing fns key value0 :
  Forall (misses key) fns ->
  exists value, joinLookupFuncs_loop fns key value0 false = Returns value false.
Proof.
  intros Hfns. revert value0.
  induction Hfns as [|g fns [v Hg] _ IH]; intros value0; simpl; [by eexists |].
  rewrite Hg. apply IH.
Qed.

Lemma joinLookupFuncs_loop_panics pre fn post key p value0 ok0 :
  Forall (misses key) pre ->
  fn key = Panics p ->
  joinLookupFuncs_loop (pre ++ fn :: post) key value0 ok0 = Panics p.
Proof.
  intros Hpre Hfn. revert value0 ok0.
  induction Hpre as [|g pre [v Hg] _ IH]; intros value0 ok0; simpl.
  - by rewrite Hfn.
  - rewrite Hg. apply IH.
Qed.

(** C10.  A parser starts with no field.  The nil functions among the
    sources are dropped: the parser is the one made from the others, in
    order.  When none is left the lookup is [os.LookupEnv].  Otherwise the
    lookup asks the sources left in the order given: the first that
    finds the key gives the result, the ones after it are not asked, and
    the key is not found when no source finds it. *)
Theorem MakeParser_lookup (funcs : list (option LookupFunc)) :
  fields (MakeParser funcs) = ∅ /\
  non_nil funcs = omap id funcs /\
  MakeParser funcs = MakeParser (Some <$> non_nil funcs) /\
  (non_nil funcs = [] -> lookup (MakeParser funcs) = os_LookupEnv) /\
  (non_nil funcs <> [] ->
     forall key,
       (forall pre fn post value,
          non_nil funcs = pre ++ fn :: post ->
          Forall (misses key) pre ->
          fn key = Returns value true ->
          lookup (MakeParser funcs) key = Returns value true) /\
       (Forall (misses key) (non_nil funcs) ->
          exists value, lookup (MakeParser funcs) key = Returns value false)).
Proof.
  split; [done |]. split; [apply non_nil_omap |]. split; [| split].
  - unfold MakeParser. by rewrite non_nil_Some.
  - intros Hnil. unfold MakeParser. by rewrite Hnil.
  - intros Hne key. unfold MakeParser. simpl.
    destruct (non_nil funcs) as [|fn0 fns] eqn:Hfns; [done |]. simpl. split.
    + intros pre fn post value Heq Hpre Hfn. unfold joinLookupFuncs. rewrite Heq.
      by apply joinLookupFuncs_loop_found.
    + intros Hall. by apply joinLookupFuncs_loop_missing.
Qed.

End Sources.

(** [TestMultipleLookups]: the command line is asked before the table; a
    nil source between them changes nothing. *)
Example MakeParser_two_sources :
  let args := Sample.table [("MAX", "42")] in
  let env := Sample.table [("MAX", "10"); ("NAME", "bob")] in
  let p := MakeParser (H := Sample.host) [Some args; None; Some env] in
  lookup p "MAX" = Returns "42" true /\
  lookup p "NAME" = Returns "bob" true /\
  lookup p "OTHER" = Returns EmptyString false /\
  lookup (MakeParser (H := Sample.host) [None; None]) "MAX" = Returns EmptyString false.
Proof. repeat split. Qed.

(** ** C6: sequences *)

Section Sequences.
Context `{Host}.

Lemma parse_confined e : confined (fun c subtext => parse e c subtext false) (zero e).
Proof.
  intros c text h h' r Hrun Hc Hz. eapply parse_frame; [exact Hrun | done | by right].
Qed.



(** The loop on string elements. *)
Lemma parse_items_strings named items :
  forall pre : heap,
    parse_items (fun c subtext => parse (TBasic named KString) c subtext false)
      (length pre) items (pre ++ replicate (length items) (VString EmptyString))
    = (pre ++ (VString <$> items), Ok).
Proof.
  induction items as [|item items IH]; intros pre; [done |].
  simpl. rewrite insert_app_r_alt, Nat.sub_diag by lia. simpl.
  specialize (IH (pre ++ [VString item])).
  rewrite length_app, Nat.add_1_r, <- !app_assoc in IH. exact IH.
Qed.



End Sequences.



(** Through [Parse] the panic is recovered as the error of the field. *)
Example Parse_defined_byte_slice :
  let p0 := MakeParser (H := Sample.host) [Some (Sample.table [("KEY", "ab")])] in
  let p1 := Var p0 (TSlice None Sample.tMyByte) 0%nat "KEY" [] in
  Parse (H := Sample.host) p1 [VSlice None]
  = ([VSlice None],
     Some "failed to parse variable(s): KEY: reflect.Set: value of type []uint8 is not assignable to type []main.MyByte").
Proof. vm_compute. reflexivity. Qed.

(** The text is not split for a [[]byte]; a blank text gives an empty
    sequence; a piece that does not convert fails the field and leaves the
    destination as it was; pieces are not trimmed. *)
Example parse_slice_cases :
  genericValue_Parse (H := Sample.host)
    {| T := TSlice None (TBasic None KUint8); dst := 0%nat |} "a,b" [VSlice None]
  = ([VSlice (Some [VUint 97; VUint 44; VUint 98])], Ok) /\
  genericValue_Parse (H := Sample.host)
    {| T := TSlice None Sample.tint; dst := 0%nat |} EmptyString [VSlice (Some [VInt 1])]
  = ([VSlice (Some [])], Ok) /\
  genericValue_Parse (H := Sample.host)
    {| T := TSlice None Sample.tint; dst := 0%nat |} "1,x,3" [VSlice (Some [VInt 9])]
  = ([VSlice (Some [VInt 9]); VInt 1; VInt 0; VInt 0],
     Err ("strconv.ParseInt: parsing " +:+ Sample.quoted "x" +:+ ": invalid syntax")) /\
  genericValue_Parse (H := Sample.host)
    {| T := TSlice None Sample.tstring; dst := 0%nat |} "a, b" [VSlice None]
  = ([VSlice (Some [VString "a"; VString " b"]); VString "a"; VString " b"], Ok).
Proof. repeat split. Qed.

(** ** C7: maps *)

Section Maps.
Context `{Host}.

Lemma key_eq_exact k0 k : exact_key k = true -> key_eq k0 k = true -> k0 = k.
Proof.
  destruct k0, k; simpl; try done; intros _ Heq; apply bool_decide_eq_true in Heq;
    by subst.
Qed.

Lemma key_eq_refl k : exact_key k = true -> key_eq k k = true.
Proof. destruct k; simpl; try done; intros _; by apply bool_decide_eq_true. Qed.

(** An entry set is the entry found; with keys whose [==] is equality the
    other keys keep their entries. *)
Lemma MapIndex_SetMapIndex_eq target k v :
  exact_key k = true -> MapIndex (SetMapIndex target k v) k = Some v.
Proof.
  intros Hk. induction target as [|[k0 v0] target IH]; simpl.
  - by rewrite key_eq_refl.
  - destruct (key_eq k0 k) eqn:H0; simpl; by rewrite H0.
Qed.

Lemma MapIndex_SetMapIndex_ne target k v k' :
  exact_key k = true -> exact_key k' = true -> k <> k' ->
  MapIndex (SetMapIndex target k v) k' = MapIndex target k'.
Proof.
  intros Hk Hk' Hne. induction target as [|[k0 v0] target IH]; simpl.
  - destruct (key_eq k k') eqn:Heq; [| done]. by apply key_eq_exact in Heq.
  - destruct (key_eq k0 k) eqn:H0; simpl.
    + apply key_eq_exact in H0 as ->; [| done].
      destruct (key_eq k k') eqn:Heq; [| done]. by apply key_eq_exact in Heq.
    + by rewrite IH.
Qed.

(** Of several entries with one key the last is the one found. *)
Lemma MapIndex_built kvs :
  forall target pre k v post,
    Forall (fun kv => exact_key kv.1 = true) kvs ->
    kvs = pre ++ (k, v) :: post ->
    k ∉ post.*1 ->
    MapIndex (built kvs target) k = Some v.
Proof.
  unfold built. induction kvs as [|kv kvs IH] using rev_ind;
    intros target pre k v post Hexact Heq Hlast.
  - by destruct pre.
  - apply Forall_app in Hexact as [Hexact Hkv]. rewrite Forall_singleton in Hkv.
    rewrite fold_left_app. simpl.
    destruct post as [|kv' post _] using rev_ind.
    + apply app_inj_tail in Heq as [_ ->]. simpl in *.
      by apply MapIndex_SetMapIndex_eq.
    + rewrite app_comm_cons, app_assoc in Heq. apply app_inj_tail in Heq as [-> ->].
      rewrite fmap_app, not_elem_of_app in Hlast. destruct Hlast as [Hlast Hne].
      apply Forall_app in Hexact as [Hpre Hexact']. rewrite Forall_cons in Hexact'.
      destruct Hexact' as [Hk Hpost].
      rewrite MapIndex_SetMapIndex_ne; [| done | done |].
      * eapply IH; [| done | done]. apply Forall_app. split; [done |].
        by apply Forall_cons.
      * intros Heq. apply Hne. rewrite <- Heq. simpl. by left.
Qed.

Lemma parse_entries_app tk te pk pe pre post target h :
  parse_entries tk te pk pe (pre ++ post) target h =
  match parse_entries tk te pk pe pre target h with
  | (h1, inl target1) => parse_entries tk te pk pe post target1 h1
  | failed => failed
  end.
Proof.
  revert target h. induction pre as [|elem pre IH]; intros target h; [done |].
  simpl. destruct (Cut elem "=") as [[key value] [|]]; [| apply IH].
  destruct (pk _ key _) as [h2 [| |]]; try done.
  destruct (pe _ value _) as [h4 [| |]]; try done.
Qed.

(** Entries without a [=] do not count. *)
Lemma parse_entries_filter tk te pk pe elems target h :
  parse_entries tk te pk pe elems target h =
  parse_entries tk te pk pe (filter (fun elem => has_eq elem = true) elems) target h.
Proof.
  revert target h. induction elems as [|elem elems IH]; intros target h; [done |].
  rewrite filter_cons.
  destruct (Cut elem "=") as [[key value] b] eqn:Hcut.
  assert (has_eq elem = b) as Hb by (unfold has_eq; by rewrite Hcut).
  destruct b.
  - rewrite decide_True by done. simpl. rewrite Hcut.
    destruct (pk _ key _) as [h2 [| |]]; try done.
    destruct (pe _ value _) as [h4 [| |]]; try done.
  - rewrite decide_False by (by rewrite Hb). simpl. rewrite Hcut. apply IH.
Qed.

Lemma parse_entries_Ok tk te elems :
  forall target h h' target',
    parse_entries tk te (fun c s => parse tk c s false) (fun c s => parse te c s false)
      elems target h = (h', inl target') ->
    exists kvs,
      Forall2 (converts tk te) (filter (fun elem => has_eq elem = true) elems) kvs /\
      target' = built kvs target.
Proof.
  induction elems as [|elem elems IH]; intros target h h' target' Hrun.
  - injection Hrun as _ <-. exists []. split; [constructor | done].
  - rewrite filter_cons. simpl in Hrun.
    destruct (Cut elem "=") as [[key value] b] eqn:Hcut.
    assert (has_eq elem = b) as Hb by (unfold has_eq; by rewrite Hcut).
    destruct b.
    2:{ rewrite decide_False by (by rewrite Hb). by eapply IH. }
    rewrite decide_True by done.
    destruct (parse tk _ key false _) as [h2 r2] eqn:Hkey.
    destruct r2; try discriminate Hrun.
    destruct (parse te _ value false _) as [h4 r4] eqn:Hval.
    destruct r4; try discriminate Hrun.
    assert (h2 !! length h = Some (default (zero tk) (h4 !! length h)) /\
            h4 !! length h2 = Some (default (zero te) (h4 !! length h2))) as [Hk Hv].
    { destruct (parse_confined tk _ _ _ _ _ Hkey) as [Hl2 _].
      { rewrite length_app. simpl. lia. }
      { by rewrite lookup_app_r, Nat.sub_diag. }
      destruct (parse_confined te _ _ _ _ _ Hval) as [Hl4 Hfr4].
      { rewrite length_app. simpl. lia. }
      { by rewrite lookup_app_r, Nat.sub_diag. }
      rewrite !length_app in *. simpl in *.
      assert (is_Some (h2 !! length h)) as [x Hx] by (apply lookup_lt_is_Some; lia).
      assert (is_Some (h4 !! length h2)) as [y Hy] by (apply lookup_lt_is_Some; lia).
      rewrite Hfr4, lookup_app_l by (rewrite ?length_app; simpl; lia).
      by rewrite Hx, Hy. }
    destruct (IH _ _ _ _ Hrun) as (kvs & Hall & ->).
    eexists ((_, _) :: kvs). split; [| reflexivity].
    constructor; [| done]. exists key, value, h, h2, h4. done.
Qed.

Lemma parse_entries_failed tk te elems :
  forall target h h' r,
    parse_entries tk te (fun c s => parse tk c s false) (fun c s => parse te c s false)
      elems target h = (h', inr r) ->
    exists elem, elem ∈ elems /\ fails tk te elem h' r.
Proof.
  induction elems as [|elem elems IH]; intros target h h' r Hrun; [done |].
  simpl in Hrun. destruct (Cut elem "=") as [[key value] [|]] eqn:Hcut.
  2:{ destruct (IH _ _ _ _ Hrun) as (e & He & Hf). exists e. split; [by right | done]. }
  destruct (parse tk _ key false _) as [h2 r2] eqn:Hkey.
  destruct r2.
  - destruct (parse te _ value false _) as [h4 r4] eqn:Hval.
    destruct r4.
    + destruct (IH _ _ _ _ Hrun) as (e & He & Hf). exists e. split; [by right | done].
    + injection Hrun as <- <-. exists elem. split; [by left |].
      exists key, value, h. split; [done |]. right; left. by exists h2, msg.
    + injection Hrun as <- <-. exists elem. split; [by left |].
      exists key, value, h. split; [done |]. right; right; right. by exists h2, recovered.
  - injection Hrun as <- <-. exists elem. split; [by left |].
    exists key, value, h. split; [done |]. left. by exists msg.
  - injection Hrun as <- <-. exists elem. split; [by left |].
    exists key, value, h. split; [done |]. right; right; left. by exists recovered.
Qed.
Lemma fails_has_eq tk te elem h' r : fails tk te elem h' r -> has_eq elem = true.
Proof. intros (key & value & hi & Hcut & _). unfold has_eq. by rewrite Hcut. Qed.

Lemma fails_not_Ok tk te elem h' : ~ fails tk te elem h' Ok.
Proof.
  intros (key & value & hi & _ & [(? & _ & ?) | [(? & ? & _ & _ & ?) |
    [(? & _ & ?) | (? & ? & _ & _ & ?)]]]); done.
Qed.

(** C7.  A top-level conversion into a map stored in cell [c], on a text
    that does not trim to nothing.  The trimmed text is split on [,] and
    each piece on its first [=]; only the pieces with a [=] count.  When
    the call succeeds every such piece had its key and its value converted
    as nested values, and the destination holds the map built from them in
    order, in which the last entry of a key is the one found.  When a key
    does not convert the call fails with ["failed to parse key: <key>:
    <cause>"], when a value does not with ["failed to parse value at key:
    <key>: <cause>"]; a call that fails stopped at a piece with a [=] in
    one of these ways (or on a panic of a conversion), and every cell that
    existed, the destination among them, is unchanged. *)
Theorem parse_map_contract (named : option tinfo) (tk te : typ) (c : loc) (text : string)
    (h h' : heap) (r : result) :
  (c < length h)%nat ->
  is_empty (TrimSpace text) = false ->
  parse (TMap named tk te) (Cell c) text true h = (h', r) ->
  let elems := Split (TrimSpace text) "," in
  let entries := filter (fun elem => has_eq elem = true) elems in
  let pk := fun v s => parse tk v s false in
  let pe := fun v s => parse te v s false in
  (r = Ok ->
     exists kvs,
       Forall2 (converts tk te) entries kvs /\
       h' !! c = Some (VMap (Some (built kvs []))) /\
       (Forall (fun kv => exact_key kv.1 = true) kvs ->
        forall pre k v post,
          kvs = pre ++ (k, v) :: post -> k ∉ post.*1 ->
          MapIndex (built kvs []) k = Some v)) /\
  (forall pre elem post key value h1 target1 h2 cause,
     elems = pre ++ elem :: post ->
     parse_entries tk te pk pe pre [] h = (h1, inl target1) ->
     Cut elem "=" = (key, value, true) ->
     parse tk (Cell (length h1)) key false (h1 ++ [zero tk]) = (h2, Err cause) ->
     h' = h2 /\ r = Err ("failed to parse key: " +:+ key +:+ ": " +:+ cause)) /\
  (forall pre elem post key value h1 target1 h2 h3 cause,
     elems = pre ++ elem :: post ->
     parse_entries tk te pk pe pre [] h = (h1, inl target1) ->
     Cut elem "=" = (key, value, true) ->
     parse tk (Cell (length h1)) key false (h1 ++ [zero tk]) = (h2, Ok) ->
     parse te (Cell (length h2)) value false (h2 ++ [zero te]) = (h3, Err cause) ->
     h' = h3 /\ r = Err ("failed to parse value at key: " +:+ key +:+ ": " +:+ cause)) /\
  (r <> Ok ->
     (forall l, (l < length h)%nat -> h' !! l = h !! l) /\
     exists elem, elem ∈ entries /\ fails tk te elem h' r).
Proof.
  intros Hc Hblank Hrun elems entries pk pe.
  pose proof (parse_frame _ _ _ _ _ _ _ Hrun Hc (or_introl eq_refl)) as [[_ Hfr] Hdst].
  simpl in Hrun. rewrite Hblank in Hrun. fold elems pk pe in Hrun.
  destruct (parse_entries tk te pk pe elems [] h) as [h1 res] eqn:Hentries.
  split; [| split; [| split]].
  - intros ->. destruct res as [target | failed].
    2:{ injection Hrun as _ ->.
        apply parse_entries_failed in Hentries as (elem & _ & Hfails).
        by apply fails_not_Ok in Hfails. }
    injection Hrun as <-.
    pose proof (parse_entries_frame _ _ _ _ _ (parse_confined tk) (parse_confined te)
                  _ _ _ _ Hentries) as [Hl1 _].
    apply parse_entries_Ok in Hentries as (kvs & Hall & ->).
    exists kvs. split; [done |]. split.
    + apply list_lookup_insert_eq. lia.
    + intros Hexact pre k v post Heq Hlast. by eapply MapIndex_built.
  - intros pre elem post key value h0 target1 h2 cause Heq Hpre Hcut Hkey.
    rewrite Heq, parse_entries_app, Hpre in Hentries. simpl in Hentries.
    rewrite Hcut in Hentries. unfold pk in Hentries at 1. rewrite Hkey in Hentries.
    injection Hentries as <- <-. by injection Hrun as <- <-.
  - intros pre elem post key value h0 target1 h2 h3 cause Heq Hpre Hcut Hkey Hval.
    rewrite Heq, parse_entries_app, Hpre in Hentries. simpl in Hentries.
    rewrite Hcut in Hentries. unfold pk in Hentries at 1. rewrite Hkey in Hentries.
    unfold pe in Hentries at 1. rewrite Hval in Hentries.
    injection Hentries as <- <-. by injection Hrun as <- <-.
  - intros Hr. split.
    + intros l Hl. destruct (decide (l = c)) as [-> | Hne]; [by apply Hdst | by apply Hfr].
    + destruct res as [target | failed]; [by injection Hrun as _ <- |].
      injection Hrun as <- <-.
      apply parse_entries_failed in Hentries as (elem & Hin & Hfails).
      exists elem. split; [| done]. apply list_elem_of_filter. split; [| done].
      by eapply fails_has_eq.
Qed.

End Maps.

(** ["x=3,y=1"] into a [map[string]int], with a piece without [=] and a
    key given twice. *)
Lemma parse_map_contract_witness :
  let h := [VMap None] in
  let out := parse (H := Sample.host) (TMap None Sample.tstring Sample.tint) (Cell 0%nat)
               "x=3,y=1,z,x=7" true h in
  out.2 = Ok /\
  exists kvs,
    Forall2 (converts (H := Sample.host) Sample.tstring Sample.tint)
      ["x=3"; "y=1"; "x=7"] kvs /\
    out.1 !! 0%nat = Some (VMap (Some (built (H := Sample.host) kvs []))).
Proof.
  intros h out. assert (out.2 = Ok) as Hok by reflexivity. split; [exact Hok |].
  destruct (parse_map_contract (H := Sample.host) None Sample.tstring Sample.tint 0%nat
              "x=3,y=1,z,x=7" h out.1 out.2) as [Hsucc _].
  - simpl. lia.
  - reflexivity.
  - apply surjective_pairing.
  - destruct (Hsucc Hok) as (kvs & Hall & Hdst & _). exists kvs. split; [exact Hall | exact Hdst].
Defined.

(** The scenario of the tests and of the specification. *)
Example parse_map_string_int :
  genericValue_Parse (H := Sample.host)
    {| T := TMap None Sample.tstring Sample.tint; dst := 0%nat |} "x=3,y=1,z,x=7"
    [VMap None]
  = ([VMap (Some [(VString "x", VInt 7); (VString "y", VInt 1)]);
      VString "x"; VInt 3; VString "y"; VInt 1; VString "x"; VInt 7], Ok).
Proof. reflexivity. Qed.

(** [TestMapParsingErrors]: ["3=4"] into a [map[bool]int] and into a
    [map[int]bool]. *)
Example parse_TestMapParsingErrors :
  genericValue_Parse (H := Sample.host)
    {| T := TMap None Sample.tbool Sample.tint; dst := 0%nat |} "3=4" [VMap None]
  = ([VMap None; VBool false],
     Err ("failed to parse key: 3: strconv.ParseBool: parsing " +:+ Sample.quoted "3"
          +:+ ": invalid syntax")) /\
  genericValue_Parse (H := Sample.host)
    {| T := TMap None Sample.tint Sample.tbool; dst := 0%nat |} "3=4" [VMap None]
  = ([VMap None; VInt 3; VBool false],
     Err ("failed to parse value at key: 3: strconv.ParseBool: parsing "
          +:+ Sample.quoted "4" +:+ ": invalid syntax")).
Proof. split; reflexivity. Qed.


(** * Further properties of the code *)

(** ** A pass writes destinations only *)

Section Pass.
Context `{Host}.

Lemma plain_field_mono h h1 f :
  (length h <= length h1)%nat -> plain_field h f -> plain_field h1 f.
Proof. intros Hl [Hp Hd]. split; [done | lia]. Qed.

Lemma genericValue_Parse_frame v text h h' r :
  is_ptr (T v) = false -> (dst v < length h)%nat ->
  genericValue_Parse v text h = (h', r) ->
  preserves (fun l => l <> dst v) h h'.
Proof.
  intros Hp Hd Hrun. unfold genericValue_Parse in Hrun. rewrite parse_TPtr in Hrun.
  simpl in Hrun.
  destruct (named_of (T v) ≫= UnmarshalText) as [d|]; [by eapply invoke_frame |].
  destruct (named_of (T v) ≫= UnmarshalBinary) as [d|]; [by eapply invoke_frame |].
  eapply parse_frame; [exact Hrun | done | by left].
Qed.

Lemma Parse_field_frame parser name f h h' outcome :
  plain_field h f ->
  Parse_field parser name f h = (h', outcome) ->
  preserves (fun l => l <> dst (value f)) h h'.
Proof.
  intros [Hp Hd]. unfold Parse_field, Parse_body.
  destruct (lookup parser name) as [text ok | p]; [| intros [= <- _]; apply preserves_refl].
  destruct (ok && is_empty text && nonEmpty (opts f));
    [intros [= <- _]; apply preserves_refl |].
  destruct (ok && is_empty text && skipEmpty (opts f));
    [intros [= <- _]; apply preserves_refl |].
  destruct (negb ok).
  - destruct (required (opts f)); [intros [= <- _]; apply preserves_refl |].
    destruct (fallback (opts f)); intros [= <- _];
      [apply preserves_insert_self | apply preserves_refl].
  - destruct (genericValue_Parse (value f) text h) as [h1 r] eqn:Hrun.
    intros [= <- _]. by eapply genericValue_Parse_frame.
Qed.

Lemma Parse_loop_frame parser order :
  forall errs h h' errs',
    Forall (fun nf => plain_field h nf.2) order ->
    Parse_loop parser order errs h = (h', errs') ->
    preserves (fun l => l ∉ destinations order) h h'.
Proof.
  induction order as [|[name f] order IH]; intros errs h h' errs' Hplain Hrun.
  - injection Hrun as <- _. apply preserves_refl.
  - apply Forall_cons in Hplain as [Hf Hplain]. simpl in Hrun, Hf.
    destruct (Parse_field parser name f h) as [h1 outcome] eqn:Hstep.
    pose proof (Parse_field_frame _ _ _ _ _ _ Hf Hstep) as Hfr.
    assert (preserves (fun l => l ∉ destinations order) h1 h') as Hrest.
    { destruct outcome; (eapply IH; [| exact Hrun]);
        (eapply Forall_impl; [exact Hplain |]); intros nf; apply plain_field_mono;
        apply Hfr. }
    eapply preserves_step; [| exact Hrest |].
    + eapply preserves_weaken; [| exact Hfr]. intros l _ Hl ->. apply Hl. by left.
    + intros l _ Hl Hin. apply Hl. by right.
Qed.

(** X1.  A pass over fields whose types are not pointers leaves every existing
    variable that is not the destination of a field as it was. *)
Theorem Parse_in_writes_destinations (parser : Parser) (order : list (string * field))
    (h h' : heap) (err : option string) :
  Forall (fun nf => plain_field h nf.2) order ->
  Parse_in parser order h = (h', err) ->
  forall l, (l < length h)%nat -> l ∉ destinations order -> h' !! l = h !! l.
Proof.
  intros Hplain Hrun l Hl Hout. unfold Parse_in in Hrun.
  destruct (Parse_loop parser order [] h) as [h1 errs] eqn:Hloop.
  injection Hrun as <- _.
  by apply (Parse_loop_frame _ _ _ _ _ _ Hplain Hloop).
Qed.

(** The step of one field inside a pass: the heap [h1] it starts from has
    the initial content of its destination, and the final heap has what the
    step left there, when no other field has the same destination. *)
Lemma Parse_loop_at parser pre name f post errs h h' errs' :
  Forall (fun nf => plain_field h nf.2) (pre ++ (name, f) :: post) ->
  dst (value f) ∉ destinations pre -> dst (value f) ∉ destinations post ->
  Parse_loop parser (pre ++ (name, f) :: post) errs h = (h', errs') ->
  exists h1,
    (length h <= length h1)%nat /\
    h1 !! dst (value f) = h !! dst (value f) /\
    h' !! dst (value f) = (Parse_field parser name f h1).1 !! dst (value f).
Proof.
  intros Hplain Hpre Hpost Hrun. rewrite Parse_loop_app in Hrun.
  apply Forall_app in Hplain as [Hplain_pre Hplain_post].
  apply Forall_cons in Hplain_post as [[Hp Hd] Hplain_post].
  destruct (Parse_loop parser pre errs h) as [h1 errs1] eqn:Hloop1.
  pose proof (Parse_loop_frame _ _ _ _ _ _ Hplain_pre Hloop1) as [Hl1 Hfr1].
  exists h1. split; [done |]. split; [by apply Hfr1 |].
  simpl in Hrun. destruct (Parse_field parser name f h1) as [h2 outcome] eqn:Hstep.
  assert (plain_field h1 f) as Hf1 by (split; [done | simpl in *; lia]).
  pose proof (Parse_field_frame _ _ _ _ _ _ Hf1 Hstep) as [Hl2 _].
  assert (preserves (fun l => l ∉ destinations post) h2 h') as [_ Hfr2].
  { destruct outcome; (eapply Parse_loop_frame; [| exact Hrun]);
      (eapply Forall_impl; [exact Hplain_post |]); intros nf; apply plain_field_mono; lia. }
  simpl. apply Hfr2; [simpl in *; lia | done].
Qed.

Lemma Parse_in_at parser order name f h h' err :
  Forall (fun nf => plain_field h nf.2) order ->
  NoDup (destinations order) ->
  (name, f) ∈ order ->
  Parse_in parser order h = (h', err) ->
  exists h1,
    (length h <= length h1)%nat /\
    h1 !! dst (value f) = h !! dst (value f) /\
    h' !! dst (value f) = (Parse_field parser name f h1).1 !! dst (value f).
Proof.
  intros Hplain Hnodup Hin Hrun.
  apply list_elem_of_split in Hin as (pre & post & ->).
  unfold destinations in Hnodup. rewrite fmap_app, fmap_cons in Hnodup.
  apply NoDup_app in Hnodup as (_ & Hpre & Hnodup).
  apply NoDup_cons in Hnodup as [Hpost _].
  unfold Parse_in in Hrun.
  destruct (Parse_loop parser _ [] h) as [h1 errs] eqn:Hloop. injection Hrun as <- _.
  eapply Parse_loop_at; [exact Hplain | | exact Hpost | exact Hloop].
  intros Hin. apply (Hpre _ Hin). by left.
Qed.

(** X2.  In a pass all of whose fields have destination types that are not
    pointers, a field that the pass skips keeps its value: a field that is
    not found, is not required and has no fallback, and a field found empty
    under [skipEmpty] (and not [nonEmpty]), when no other field has the
    same destination. *)
Theorem Parse_in_skipped_field (parser : Parser) (order : list (string * field))
    (name : string) (f : field) (h h' : heap) (err : option string) :
  Forall (fun nf => plain_field h nf.2) order ->
  NoDup (destinations order) ->
  (name, f) ∈ order ->
  ((exists text, lookup parser name = Returns text false) /\
     required (opts f) = false /\ fallback (opts f) = None) \/
  (lookup parser name = Returns EmptyString true /\
     nonEmpty (opts f) = false /\ skipEmpty (opts f) = true) ->
  Parse_in parser order h = (h', err) ->
  h' !! dst (value f) = h !! dst (value f).
Proof.
  intros Hplain Hnodup Hin Hcase Hrun.
  destruct (Parse_in_at _ _ _ _ _ _ _ Hplain Hnodup Hin Hrun) as (h1 & _ & Hsame & ->).
  rewrite <- Hsame. unfold Parse_field, Parse_body.
  destruct Hcase as [([text ->] & -> & ->) | (-> & -> & ->)]; done.
Qed.

(** X3.  In a pass all of whose fields have destination types that are not
    pointers, a field that is not found, is not required and has a fallback
    holds the fallback after the pass, when no other field has the same
    destination, whatever the order of the fields. *)
Theorem Parse_in_fallback (parser : Parser) (order : list (string * field))
    (name : string) (f : field) (fb : val) (text : string) (h h' : heap)
    (err : option string) :
  Forall (fun nf => plain_field h nf.2) order ->
  NoDup (destinations order) ->
  (name, f) ∈ order ->
  lookup parser name = Returns text false ->
  required (opts f) = false ->
  fallback (opts f) = Some fb ->
  Parse_in parser order h = (h', err) ->
  h' !! dst (value f) = Some fb.
Proof.
  intros Hplain Hnodup Hin Hl Hreq Hfb Hrun.
  destruct (Parse_in_at _ _ _ _ _ _ _ Hplain Hnodup Hin Hrun) as (h1 & Hlen & _ & ->).
  unfold Parse_field, Parse_body. rewrite Hl, Hreq, Hfb. simpl.
  unfold genericValue_Set. apply list_lookup_insert_eq.
  rewrite Forall_forall in Hplain. destruct (Hplain _ Hin) as [_ Hd]. simpl in Hd. lia.
Qed.

Lemma Parse_outcomes_elem parser order name f :
  forall h, (name, f) ∈ order ->
  exists h1, (name, (Parse_field parser name f h1).2) ∈ Parse_outcomes parser order h.
Proof.
  induction order as [|[name0 f0] order IH]; intros h Hin; [by apply elem_of_nil in Hin |].
  simpl. destruct (Parse_field parser name0 f0 h) as [h1 outcome] eqn:Hstep.
  apply elem_of_cons in Hin as [[= -> ->] | Hin].
  - exists h. rewrite Hstep. by left.
  - destruct (IH h1 Hin) as [h2 Hh2]. exists h2. by right.
Qed.

Lemma failures_nil outcomes name outcome :
  failures outcomes = [] -> (name, outcome) ∈ outcomes -> outcome = None.
Proof.
  unfold failures. induction outcomes as [|[n o] outcomes IH]; intros Hnil Hin;
    [by apply elem_of_nil in Hin |].
  simpl in Hnil. destruct o as [err|]; [done |]. simpl in Hnil.
  apply elem_of_cons in Hin as [[= -> ->] | Hin]; [done | by apply IH].
Qed.

(** X4.  After a pass that returns no error, the lookup found every required
    field, found no [nonEmpty] field with an empty text, and did not panic
    on any field. *)
Theorem Parse_in_success (parser : Parser) (order : list (string * field))
    (name : string) (f : field) (h h' : heap) :
  Parse_in parser order h = (h', None) ->
  (name, f) ∈ order ->
  exists text ok,
    lookup parser name = Returns text ok /\
    (required (opts f) = true -> ok = true) /\
    (nonEmpty (opts f) = true -> ok = true -> text <> EmptyString).
Proof.
  intros Hrun Hin.
  assert ((Parse_in parser order h).2 = None) as Hnone by (by rewrite Hrun).
  rewrite Parse_in_failures, MultiErrOrderedFrom_None in Hnone.
  apply fmap_nil_inv in Hnone.
  destruct (Parse_outcomes_elem parser order name f h Hin) as [h1 Hout].
  apply (failures_nil _ _ _ Hnone) in Hout.
  unfold Parse_field, Parse_body in Hout.
  destruct (lookup parser name) as [text ok | p]; [| done].
  exists text, ok. split; [done |]. split.
  - intros Hreq. destruct ok; [done |]. simpl in Hout. by rewrite Hreq in Hout.
  - intros Hne -> ->. simpl in Hout. by rewrite Hne in Hout.
Qed.

End Pass.

(** ** A conversion is a function of the text *)

Section Pure.
Context `{Host}.

Lemma parse_items_agrees p z items :
  agrees p -> confined p z ->
  forall b1 b2 h1 h2 h1' h2' r1 r2,
    parse_items p b1 items h1 = (h1', r1) ->
    parse_items p b2 items h2 = (h2', r2) ->
    (b1 + length items <= length h1)%nat ->
    (b2 + length items <= length h2)%nat ->
    (forall i, (i < length items)%nat -> h1 !! (b1 + i)%nat = Some z) ->
    (forall i, (i < length items)%nat -> h2 !! (b2 + i)%nat = Some z) ->
    r1 = r2 /\
    (r1 = Ok -> forall i, (i < length items)%nat ->
       h1' !! (b1 + i)%nat = h2' !! (b2 + i)%nat).
Proof.
  intros Hag Hconf. induction items as [|item items IH];
    intros b1 b2 h1 h2 h1' h2' r1 r2 Hrun1 Hrun2 Hl1 Hl2 Hz1 Hz2.
  - injection Hrun1 as _ <-. injection Hrun2 as _ <-. split; [done |].
    intros _ i Hi. simpl in Hi. lia.
  - simpl in *.
    destruct (p (Cell b1) item h1) as [h1a r1a] eqn:Hs1.
    destruct (p (Cell b2) item h2) as [h2a r2a] eqn:Hs2.
    destruct (Hag b1 b2 item h1 h2 h1a h2a r1a r2a ltac:(lia) ltac:(lia) Hs1 Hs2)
      as [<- Hval].
    assert (h1 !! b1 = Some z) as Hz10
      by (rewrite <- (Hz1 0%nat) by lia; f_equal; lia).
    assert (h2 !! b2 = Some z) as Hz20
      by (rewrite <- (Hz2 0%nat) by lia; f_equal; lia).
    destruct (Hconf b1 item h1 h1a r1a Hs1 ltac:(lia) Hz10) as [Hla1 Hfa1].
    destruct (Hconf b2 item h2 h2a r1a Hs2 ltac:(lia) Hz20) as [Hla2 Hfa2].
    destruct r1a; [| injection Hrun1 as _ <-; injection Hrun2 as _ <-; done..].
    assert (forall i, (i < length items)%nat -> h1a !! (S b1 + i)%nat = Some z) as Hz1'.
    { intros i Hi. rewrite Hfa1 by lia. rewrite <- (Hz1 (S i)) by lia. f_equal. lia. }
    assert (forall i, (i < length items)%nat -> h2a !! (S b2 + i)%nat = Some z) as Hz2'.
    { intros i Hi. rewrite Hfa2 by lia. rewrite <- (Hz2 (S i)) by lia. f_equal. lia. }
    destruct (IH (S b1) (S b2) h1a h2a h1' h2' r1 r2 Hrun1 Hrun2 ltac:(lia) ltac:(lia)
                Hz1' Hz2') as [<- Hrest].
    split; [done |]. intros -> [|i] Hi.
    + rewrite !Nat.add_0_r.
      destruct (parse_items_frame _ _ _ Hconf (S b1) h1a h1' Ok Hrun1 ltac:(lia) Hz1')
        as [_ Hf1].
      destruct (parse_items_frame _ _ _ Hconf (S b2) h2a h2' Ok Hrun2 ltac:(lia) Hz2')
        as [_ Hf2].
      rewrite Hf1, Hf2 by (lia || (left; lia)). by apply Hval.
    + replace (b1 + S i)%nat with (S b1 + i)%nat by lia.
      replace (b2 + S i)%nat with (S b2 + i)%nat by lia.
      apply Hrest; [done | lia].
Qed.

Lemma fresh_cell (h : heap) (z : val) : (h ++ [z]) !! length h = Some z.
Proof. by rewrite lookup_app_r, Nat.sub_diag. Qed.

Lemma parse_entries_agrees tk te pk pe elems :
  agrees pk -> agrees pe -> confined pk (zero tk) -> confined pe (zero te) ->
  forall target h1 h2 h1' h2' res1 res2,
    parse_entries tk te pk pe elems target h1 = (h1', res1) ->
    parse_entries tk te pk pe elems target h2 = (h2', res2) ->
    res1 = res2.
Proof.
  intros Hak Hae Hck Hce. induction elems as [|elem elems IH];
    intros target h1 h2 h1' h2' res1 res2 Hrun1 Hrun2.
  - injection Hrun1 as _ <-. by injection Hrun2 as _ <-.
  - simpl in *. destruct (Cut elem "=") as [[key value] [|]]; [| by eapply IH].
    destruct (pk (Cell (length h1)) key (h1 ++ [zero tk])) as [h1a r1a] eqn:Hk1.
    destruct (pk (Cell (length h2)) key (h2 ++ [zero tk])) as [h2a r2a] eqn:Hk2.
    assert (forall (h : heap) z, (length h < length (h ++ [z]))%nat) as Hlt
      by (intros; rewrite length_app; simpl; lia).
    assert (forall (h : heap) z, length (h ++ [z]) = S (length h)) as Hlz
      by (intros; rewrite length_app; simpl; lia).
    destruct (Hak _ _ _ _ _ _ _ _ _ (Hlt _ _) (Hlt _ _) Hk1 Hk2) as [<- Hkey].
    destruct (Hck _ _ _ _ _ Hk1 (Hlt _ _) (fresh_cell _ _)) as [Hla1 _].
    destruct (Hck _ _ _ _ _ Hk2 (Hlt _ _) (fresh_cell _ _)) as [Hla2 _].
    rewrite Hlz in Hla1, Hla2.
    destruct r1a; [| injection Hrun1 as _ <-; injection Hrun2 as _ <-; done..].
    destruct (pe (Cell (length h1a)) value (h1a ++ [zero te])) as [h1b r1b] eqn:Hv1.
    destruct (pe (Cell (length h2a)) value (h2a ++ [zero te])) as [h2b r2b] eqn:Hv2.
    destruct (Hae _ _ _ _ _ _ _ _ _ (Hlt _ _) (Hlt _ _) Hv1 Hv2) as [<- Hvalue].
    destruct (Hce _ _ _ _ _ Hv1 (Hlt _ _) (fresh_cell _ _)) as [_ Hfb1].
    destruct (Hce _ _ _ _ _ Hv2 (Hlt _ _) (fresh_cell _ _)) as [_ Hfb2].
    destruct r1b; [| injection Hrun1 as _ <-; injection Hrun2 as _ <-; done..].
    assert (h1b !! length h1 = h2b !! length h2) as Hk.
    { rewrite Hfb1, Hfb2 by (rewrite ?Hlz; lia).
      rewrite !lookup_app_l by lia. by apply Hkey. }
    rewrite Hk, (Hvalue eq_refl) in Hrun1. by eapply IH.
Qed.

Lemma parse_basic_agrees t named k c1 c2 text h1 h2 h1' h2' r1 r2 :
  (c1 < length h1)%nat -> (c2 < length h2)%nat ->
  parse_basic t named k (Cell c1) text h1 = (h1', r1) ->
  parse_basic t named k (Cell c2) text h2 = (h2', r2) ->
  r1 = r2 /\ (r1 = Ok -> h1' !! c1 = h2' !! c2).
Proof.
  intros Hc1 Hc2 Hrun1 Hrun2. unfold parse_basic in Hrun1, Hrun2.
  repeat match type of Hrun1 with
  | context [match ?x with _ => _ end] => destruct x
  end;
  rewrite ?Set_Cell in Hrun1, Hrun2;
  injection Hrun1 as <- <-; injection Hrun2 as <- <-;
  (split; [done |]); intros; try done; by rewrite !list_lookup_insert_eq.
Qed.

(** Nested conversions into a type without pointers agree. *)
Lemma parse_nested_agrees t :
  pointer_free t = true -> agrees (fun c text => parse t c text false).
Proof.
  intros Hfree c1 c2 text h1 h2 h1' h2' r1 r2 Hc1 Hc2 Hrun1 Hrun2.
  destruct t as [named k | named e | named tk te | e]; [| | | done].
  - by eapply parse_basic_agrees.
  - injection Hrun1 as _ <-. by injection Hrun2 as _ <-.
  - injection Hrun1 as _ <-. by injection Hrun2 as _ <-.
Qed.

Lemma parse_top_agrees t c1 c2 text h1 h2 h1' h2' r1 r2 :
  pointer_free t = true ->
  (forall named tk te, t = TMap named tk te -> is_empty (TrimSpace text) = false) ->
  (c1 < length h1)%nat -> (c2 < length h2)%nat ->
  parse t (Cell c1) text true h1 = (h1', r1) ->
  parse t (Cell c2) text true h2 = (h2', r2) ->
  r1 = r2 /\ (r1 = Ok -> h1' !! c1 = h2' !! c2).
Proof.
  intros Hfree Hmap Hc1 Hc2 Hrun1 Hrun2.
  destruct t as [named k | named e | named tk te | e]; [| | | done].
  - by eapply parse_basic_agrees.
  - simpl in Hfree, Hrun1, Hrun2.
    destruct (elem_is_Uint8 e).
    { destruct (bytes_assignable e); injection Hrun1 as <- <-; injection Hrun2 as <- <-;
        (split; [done |]); intros; try done; by rewrite !list_lookup_insert_eq. }
    destruct (is_empty (TrimSpace text)).
    { injection Hrun1 as <- <-. injection Hrun2 as <- <-. split; [done |].
      intros _. by rewrite !list_lookup_insert_eq. }
    set (items := Split text ",") in *.
    destruct (parse_items _ (length h1) items _) as [h1a r1a] eqn:Hi1.
    destruct (parse_items _ (length h2) items _) as [h2a r2a] eqn:Hi2.
    assert (forall h : heap, forall i, (i < length items)%nat ->
              (h ++ replicate (length items) (zero e)) !! (length h + i)%nat
              = Some (zero e)) as Hz.
    { intros h i Hi. rewrite lookup_app_r by lia. apply lookup_replicate_2. lia. }
    assert (forall h : heap, length (h ++ replicate (length items) (zero e))
              = (length h + length items)%nat) as Hlen.
    { intros h. by rewrite length_app, length_replicate. }
    destruct (parse_items_agrees _ _ _ (parse_nested_agrees e Hfree) (parse_confined e)
                _ _ _ _ _ _ _ _ Hi1 Hi2 ltac:(rewrite Hlen; lia) ltac:(rewrite Hlen; lia)
                (Hz h1) (Hz h2)) as [<- Hvals].
    destruct (parse_items_frame _ _ _ (parse_confined e) _ _ _ _ Hi1
                ltac:(rewrite Hlen; lia) (Hz h1)) as [Hla1 _].
    destruct (parse_items_frame _ _ _ (parse_confined e) _ _ _ _ Hi2
                ltac:(rewrite Hlen; lia) (Hz h2)) as [Hla2 _].
    rewrite Hlen in Hla1, Hla2.
    destruct r1a; [| injection Hrun1 as _ <-; injection Hrun2 as _ <-; done..].
    injection Hrun1 as <- <-. injection Hrun2 as <- <-. split; [done |]. intros _.
    rewrite !list_lookup_insert_eq by lia. do 3 f_equal.
    apply list_eq. intros i. destruct (decide (i < length items)%nat) as [Hi | Hi].
    + rewrite !lookup_take_lt by done. rewrite !lookup_drop. by apply Hvals.
    + rewrite !lookup_take_ge by lia. done.
  - simpl in Hfree, Hrun1, Hrun2. apply andb_true_iff in Hfree as [Hfk Hfe].
    rewrite (Hmap _ _ _ eq_refl) in Hrun1, Hrun2.
    destruct (parse_entries _ _ _ _ _ _ h1) as [h1a res1] eqn:He1.
    destruct (parse_entries _ _ _ _ _ _ h2) as [h2a res2] eqn:He2.
    pose proof (parse_entries_agrees _ _ _ _ _ (parse_nested_agrees tk Hfk)
                  (parse_nested_agrees te Hfe) (parse_confined tk) (parse_confined te)
                  _ _ _ _ _ _ _ He1 He2) as <-.
    destruct (parse_entries_frame _ _ _ _ _ (parse_confined tk) (parse_confined te)
                _ _ _ _ He1) as [Hla1 _].
    destruct (parse_entries_frame _ _ _ _ _ (parse_confined tk) (parse_confined te)
                _ _ _ _ He2) as [Hla2 _].
    destruct res1 as [target | failed].
    + injection Hrun1 as <- <-. injection Hrun2 as <- <-. split; [done |]. intros _.
      by rewrite !list_lookup_insert_eq by lia.
    + injection Hrun1 as _ <-. injection Hrun2 as _ <-. split; [done |]. intros ->.
      apply parse_entries_failed in He1 as (elem & _ & Hfails).
      by apply fails_not_Ok in Hfails.
Qed.

(** X5.  For a destination type with no pointer in it and no custom decoder,
    what a conversion returns and, on success, what it stores depend on the
    type and the text only: not on the heap, on the destination or on the
    value it held.  (A map on a text that trims to nothing is set apart: it
    stores nothing.) *)
Theorem genericValue_Parse_agrees (t : typ) (d1 d2 : loc) (text : string)
    (h1 h2 h1' h2' : heap) (r1 r2 : result) :
  pointer_free t = true ->
  decodable t = false ->
  (forall named tk te, t = TMap named tk te -> is_empty (TrimSpace text) = false) ->
  (d1 < length h1)%nat -> (d2 < length h2)%nat ->
  genericValue_Parse {| T := t; dst := d1 |} text h1 = (h1', r1) ->
  genericValue_Parse {| T := t; dst := d2 |} text h2 = (h2', r2) ->
  r1 = r2 /\ (r1 = Ok -> h1' !! d1 = h2' !! d2).
Proof.
  intros Hfree Hdec Hmap Hd1 Hd2 Hrun1 Hrun2.
  unfold genericValue_Parse in Hrun1, Hrun2. rewrite parse_TPtr in Hrun1, Hrun2.
  simpl in Hrun1, Hrun2. apply decodable_false in Hdec as [Htext Hbin].
  rewrite Htext, Hbin in Hrun1, Hrun2. by eapply parse_top_agrees.
Qed.


End Pure.

(** ** Splitting and joining *)

Section Pieces.

Lemma Split_not_nil s c : Split s c <> [].
Proof. destruct s as [|a r]; simpl; [done |]. destruct (Ascii.eqb a c); [done |]. by destruct (Split r c). Qed.

Lemma Join_cons x y rest sep : Join (x :: y :: rest) sep = x +:+ sep +:+ Join (y :: rest) sep.
Proof. reflexivity. Qed.

(** [strings.Join(strings.Split(s, sep), sep) == s]. *)
Lemma Join_Split s c : Join (Split s c) (String c EmptyString) = s.
Proof.
  induction s as [|a r IH]; [done |]. simpl.
  destruct (Ascii.eqb a c) eqn:Hac.
  - apply Ascii.eqb_eq in Hac as ->.
    destruct (Split r c) as [|x rest] eqn:Hs; [by apply Split_not_nil in Hs |].
    rewrite Join_cons, IH. done.
  - destruct (Split r c) as [|x rest] eqn:Hs; [by apply Split_not_nil in Hs |].
    destruct rest as [|y rest].
    + simpl in *. by rewrite IH.
    + rewrite Join_cons in *. rewrite <- IH. done.
Qed.

(** No piece has the separator in it. *)
Lemma Split_pieces s c : Forall (fun x => (Cut x c).2 = false) (Split s c).
Proof.
  induction s as [|a r IH]; simpl; [by constructor |].
  destruct (Ascii.eqb a c) eqn:Hac; [by constructor |].
  destruct (Split r c) as [|x rest] eqn:Hs; [by apply Split_not_nil in Hs |].
  rewrite Forall_cons in IH. destruct IH as [Hx Hrest].
  constructor; [| done]. simpl. rewrite Hac. by destruct (Cut x c) as [[? ?] [|]].
Qed.

(** A text without the separator is one piece. *)
Lemma Split_one s c : (Cut s c).2 = false -> Split s c = [s].
Proof.
  induction s as [|a r IH]; [done |]. simpl.
  destruct (Ascii.eqb a c); [done |].
  destruct (Cut r c) as [[before after] [|]]; [done |]. intros _. by rewrite IH.
Qed.

Lemma append_nil s : EmptyString +:+ s = s.
Proof. reflexivity. Qed.

Lemma Split_app x y c :
  (Cut x c).2 = false -> Split (x +:+ String c y) c = x :: Split y c.
Proof.
  induction x as [|a r IH].
  - intros _. rewrite append_nil. simpl. by rewrite Ascii.eqb_refl.
  - rewrite append_cons. simpl. destruct (Ascii.eqb a c) eqn:Hac; [done |].
    destruct (Cut r c) as [[before after] [|]]; [done |]. intros _. by rewrite IH.
Qed.

(** [strings.Split(strings.Join(l, sep), sep)] is [l], for a list that is
    not empty of texts without the separator. *)
Lemma Split_Join l c :
  l <> [] -> Forall (fun x => (Cut x c).2 = false) l ->
  Split (Join l (String c EmptyString)) c = l.
Proof.
  induction l as [|x l IH]; intros Hne Hall; [done |].
  rewrite Forall_cons in Hall. destruct Hall as [Hx Hall].
  destruct l as [|y rest].
  - simpl. by apply Split_one.
  - rewrite Join_cons.
    assert (forall a b, a +:+ String c EmptyString +:+ b = a +:+ String c b) as Happ.
    { reflexivity. }
    rewrite Happ, Split_app by done. f_equal. by apply IH.
Qed.

(** The text before the first separator has no separator, and the three
    parts make up the text. *)
Lemma Cut_found s c before after :
  Cut s c = (before, after, true) ->
  s = before +:+ String c after /\ (Cut before c).2 = false.
Proof.
  revert before after. induction s as [|a r IH]; intros before after; [done |].
  simpl. destruct (Ascii.eqb a c) eqn:Hac.
  - intros [= <- <-]. apply Ascii.eqb_eq in Hac as ->. done.
  - destruct (Cut r c) as [[b0 a0] [|]]; [| done]. intros [= <- <-].
    destruct (IH _ _ eq_refl) as [-> Hb]. split; [done |]. simpl. rewrite Hac.
    by destruct (Cut b0 c) as [[? ?] [|]].
Qed.

Lemma Cut_app x y c :
  (Cut x c).2 = false -> Cut (x +:+ String c y) c = (x, y, true).
Proof.
  induction x as [|a r IH].
  - intros _. rewrite append_nil. simpl. by rewrite Ascii.eqb_refl.
  - rewrite append_cons. simpl. destruct (Ascii.eqb a c) eqn:Hac; [done |].
    destruct (Cut r c) as [[before after] [|]]; [done |]. intros _. by rewrite IH.
Qed.

End Pieces.

Section Composite.
Context `{Host}.

Lemma insert_fresh (h : heap) (z x : val) : <[length h := x]> (h ++ [z]) = h ++ [x].
Proof. by rewrite insert_app_r_alt, Nat.sub_diag by lia. Qed.

(** X7.  A [[]string] destination, on a text that does not trim to nothing,
    holds the pieces [strings.Split(text, ",")] of the text, as they are:
    no piece has a comma in it, and joined with commas the pieces give the
    text back, spaces included. *)
Theorem parse_strings_round_trip (named n : option tinfo) (c : loc) (text : string)
    (h : heap) :
  (c < length h)%nat ->
  is_empty (TrimSpace text) = false ->
  exists h',
    parse (TSlice named (TBasic n KString)) (Cell c) text true h = (h', Ok) /\
    h' !! c = Some (VSlice (Some (VString <$> Split text ","))) /\
    Forall (fun piece => (Cut piece ",").2 = false) (Split text ",") /\
    Join (Split text ",") "," = text.
Proof.
  intros Hc Hblank. eexists. split; [| split; [| split]].
  - simpl. rewrite Hblank.
    pose proof (parse_items_strings n (Split text ",") h) as Hitems. simpl in Hitems.
    rewrite Hitems. rewrite drop_app_length.
    rewrite take_ge by (by rewrite length_fmap). reflexivity.
  - apply list_lookup_insert_eq. rewrite length_app. lia.
  - apply Split_pieces.
  - apply Join_Split.
Qed.

(** X8.  The values of a flag that is given several times reach a [[]string]
    destination one by one: a list, not empty, of values without commas,
    joined with commas as the command-line source does, is converted
    without error and stored as that list, unless the joined text trims to
    nothing (a single value of white space only): then the empty sequence
    is stored and the value is lost. *)
Theorem parse_joined_values (named n : option tinfo) (c : loc) (vs : list string)
    (h : heap) :
  (c < length h)%nat ->
  vs <> [] ->
  Forall (fun x => (Cut x ",").2 = false) vs ->
  (parse (TSlice named (TBasic n KString)) (Cell c) (Join vs ",") true h).2 = Ok /\
  (parse (TSlice named (TBasic n KString)) (Cell c) (Join vs ",") true h).1 !! c
  = Some (VSlice (Some (if is_empty (TrimSpace (Join vs ",")) then []
                        else VString <$> vs))).
Proof.
  intros Hc Hne Hall. simpl. destruct (is_empty (TrimSpace (Join vs ","))).
  { simpl. split; [done |]. by apply list_lookup_insert_eq. }
  pose proof (Split_Join vs "," Hne Hall) as Hsplit. simpl in Hsplit. rewrite Hsplit.
  pose proof (parse_items_strings n vs h) as Hitems. simpl in Hitems.
  rewrite Hitems. rewrite drop_app_length.
  rewrite take_ge by (by rewrite length_fmap). simpl. split; [done |].
  apply list_lookup_insert_eq. rewrite length_app. lia.
Qed.

(** X9.  One entry of a map text: the key is what precedes the first [=] and the
    value all that follows it, further [=] included.  For a
    [map[string]string] and a text without comma and without space at either
    end, the destination holds that one entry. *)
Theorem parse_map_entry (named nk ne : option tinfo) (c : loc) (key value : string)
    (h : heap) :
  (c < length h)%nat ->
  has_eq key = false ->
  (Cut key ",").2 = false -> (Cut value ",").2 = false ->
  TrimSpace (key +:+ "=" +:+ value) = key +:+ "=" +:+ value ->
  let out := parse (TMap named (TBasic nk KString) (TBasic ne KString)) (Cell c)
               (key +:+ "=" +:+ value) true h in
  out.2 = Ok /\ out.1 !! c = Some (VMap (Some [(VString key, VString value)])).
Proof.
  intros Hc Hkey Hck Hcv Htrim out. unfold out. simpl. rewrite Htrim.
  assert (key +:+ "=" +:+ value = key +:+ String "=" value) as Heq.
  { reflexivity. }
  rewrite Heq.
  assert (is_empty (key +:+ String "=" value) = false) as -> by (by destruct key).
  assert ((Cut (key +:+ String "=" value) ",").2 = false) as Hnc.
  { clear - Hck Hcv. induction key as [|a key IH].
    - rewrite append_nil. simpl. by destruct (Cut value ",") as [[? ?] [|]].
    - rewrite append_cons. simpl in *. destruct (Ascii.eqb a ","); [done |].
      destruct (Cut key ",") as [[? ?] [|]]; [done |].
      specialize (IH eq_refl).
      by destruct (Cut (key +:+ String "=" value) ",") as [[? ?] [|]]. }
  rewrite (Split_one _ _ Hnc).
  cbn [parse_entries]. rewrite (Cut_app key value "=" Hkey).
  unfold New. cbn [parse parse_basic]. rewrite !Set_Cell.
  rewrite insert_fresh. rewrite insert_fresh.
  rewrite fresh_cell.
  rewrite <- app_assoc, lookup_app_r by lia. rewrite Nat.sub_diag.
  cbn [default parse_entries SetMapIndex app lookup list_lookup]. rewrite ?Set_Cell.
  simpl. split; [done |]. apply list_lookup_insert_eq. rewrite !length_app. lia.
Qed.

(** X10.  A destination of type [*T], for [T] that is not a pointer type and
    has no decoder, that already points to another variable keeps the
    pointer: nothing is allocated, the text is converted into that variable
    as a top-level [T], and on failure nothing that existed is changed. *)
Theorem parse_allocated_pointer (e : typ) (d l : loc) (text : string) (h h' : heap)
    (r : result) :
  h !! d = Some (VPtr (Some l)) ->
  (l < length h)%nat ->
  l <> d ->
  is_ptr e = false ->
  decodable e = false ->
  genericValue_Parse {| T := TPtr e; dst := d |} text h = (h', r) ->
  parse e (Cell l) text true h = (h', r) /\
  h' !! d = Some (VPtr (Some l)) /\
  (r <> Ok -> forall c, (c < length h)%nat -> h' !! c = h !! c).
Proof.
  intros Hd Hl Hne Hp Hdec Hrun. unfold genericValue_Parse in Hrun.
  change (parse (TPtr (T {| T := TPtr e; dst := d |})) (Addr (dst {| T := TPtr e; dst := d |}))
            text true h)
    with (parse (TPtr e) (Cell d) text true h) in Hrun.
  rewrite parse_TPtr in Hrun. unfold deref in Hrun. rewrite Hd in Hrun.
  apply decodable_false in Hdec as [Htext Hbin]. rewrite Htext, Hbin in Hrun.
  split; [done |].
  destruct (parse_frame _ _ _ _ _ _ _ Hrun Hl (or_introl Hp)) as [[_ Hfr] Hkeep].
  split.
  - rewrite Hfr; [done | by eapply lookup_lt_Some | done].
  - intros Hr c Hc. destruct (decide (c = l)) as [-> | Hcl]; [by apply Hkeep | by apply Hfr].
Qed.

End Composite.

(** ** Composing lookup functions *)

Section Join.

Lemma joinLookupFuncs_loop_app fs gs key value :
  joinLookupFuncs_loop (fs ++ gs) key value false =
  match joinLookupFuncs_loop fs key value false with
  | Returns value' false => joinLookupFuncs_loop gs key value' false
  | found => found
  end.
Proof.
  revert value. induction fs as [|fn fs IH]; intros value; [done |].
  simpl. destruct (fn key) as [v [|] | p]; [done | apply IH | done].
Qed.

Lemma joinLookupFuncs_loop_init gs key value value' ok ok' :
  gs <> [] ->
  joinLookupFuncs_loop gs key value ok = joinLookupFuncs_loop gs key value' ok'.
Proof. by destruct gs. Qed.

(** X11.  A source that panics when no source before it finds the key makes the
    composed lookup panic with the same value, whatever follows. *)
Theorem joinLookupFuncs_panics (pre post : list LookupFunc) (fn : LookupFunc)
    (key p : string) :
  Forall (misses key) pre ->
  fn key = Panics p ->
  joinLookupFuncs (pre ++ fn :: post) key = Panics p.
Proof.
  intros Hpre Hfn. unfold joinLookupFuncs. generalize EmptyString, false.
  induction Hpre as [|g pre [v Hg] _ IH]; intros value0 ok0; simpl.
  - by rewrite Hfn.
  - rewrite Hg. apply IH.
Qed.

(** X12.  Composing composed lookups is composing their sources: the lookup
    joined from [fs ++ gs] is the one joined from the lookup of [fs] and
    the lookup of [gs], for [gs] not empty. *)
Theorem joinLookupFuncs_app (fs gs : list LookupFunc) (key : string) :
  gs <> [] ->
  joinLookupFuncs (fs ++ gs) key
  = joinLookupFuncs [joinLookupFuncs fs; joinLookupFuncs gs] key.
Proof.
  intros Hgs. unfold joinLookupFuncs at 1 2. rewrite joinLookupFuncs_loop_app. simpl.
  unfold joinLookupFuncs.
  destruct (joinLookupFuncs_loop fs key EmptyString false) as [v [|] | p]; [done | | done].
  rewrite (joinLookupFuncs_loop_init gs key v EmptyString false false Hgs).
  by destruct (joinLookupFuncs_loop gs key EmptyString false) as [v' [|] | p].
Qed.

End Join.

(** ** The command line as a source *)

Section CommandLine.
Context `{System}.

Lemma HasPrefix_nil s : HasPrefix s EmptyString = true.
Proof. by destruct s. Qed.

Lemma TrimLeftByte_dashes n k :
  HasPrefix k "-" = false ->
  TrimLeftByte (String.concat EmptyString (replicate n "-") +:+ k) "-" = k.
Proof.
  intros Hk. induction n as [|n IH]; simpl.
  - rewrite append_nil. destruct k as [|a k]; [done |]. simpl in *.
    rewrite HasPrefix_nil in Hk. destruct (Ascii.eqb a "-"); done.
  - destruct n; simpl in *; rewrite ?append_cons; simpl; exact IH.
Qed.

Lemma HasPrefix_false_step st arg :
  HasPrefix arg "-" = false -> is_empty (flag st) = true ->
  CommandLineArgs_step st arg = st.
Proof. intros Harg Hflag. unfold CommandLineArgs_step. by rewrite Harg, Hflag. Qed.

Lemma CommandLineArgs_loop_positional args st :
  Forall (fun arg => HasPrefix arg "-" = false) args ->
  is_empty (flag st) = true ->
  fold_left CommandLineArgs_step args st = st.
Proof.
  intros Hall Hflag. induction Hall as [|arg args Harg _ IH]; [done |].
  simpl. by rewrite HasPrefix_false_step.
Qed.

(** X13.  Arguments none of which starts with a dash define no flag: every name
    is reported as not found. *)
Theorem CommandLineArgs_positional (args : list string) (name : string) :
  args <> [] ->
  Forall (fun arg => HasPrefix arg "-" = false) args ->
  CommandLineArgs args name = Returns EmptyString false.
Proof.
  intros Hne Hall. unfold CommandLineArgs.
  destruct args as [|arg args]; [done |]. simpl length. simpl Nat.eqb. cbv iota.
  unfold CommandLineArgs_loop. rewrite CommandLineArgs_loop_positional by done.
  unfold CommandLineArgs_lookup. simpl. by rewrite lookup_empty.
Qed.

Lemma switch_step m0 pending n k :
  flag_name k ->
  CommandLineArgs_step {| m := m0; flag := pending |} (switch_arg n k)
  = {| m := if negb (is_empty pending) && (length (values m0 pending) =? 0)%nat
            then <[pending := ["true"]]> m0 else m0;
       flag := ToLower k |}.
Proof.
  intros (Hdash & Hne & Heq). unfold CommandLineArgs_step, switch_arg.
  set (rest := String.concat EmptyString (replicate n "-") +:+ k).
  assert (HasPrefix (String "-" rest) "-" = true) as ->
    by (simpl; apply HasPrefix_nil).
  assert (TrimLeftByte (String "-" rest) "-" = k) as ->
    by (simpl; by apply TrimLeftByte_dashes).
  unfold has_eq in Heq. simpl. by destruct (Cut (ToLower k) "=") as [[? ?] [|]].
Qed.

Lemma flag_args_eq n k v : flag_args (n, k, v) = [switch_arg n k; v].
Proof. reflexivity. Qed.

Lemma flag_args_steps m0 item :
  flag_item item ->
  fold_left CommandLineArgs_step (flag_args item) {| m := m0; flag := EmptyString |}
  = {| m := add_items m0 [item]; flag := EmptyString |}.
Proof.
  destruct item as [[n k] v]. intros [Hk Hv]. simpl in Hk, Hv.
  rewrite flag_args_eq. cbn [fold_left].
  rewrite (switch_step m0 EmptyString n k Hk). simpl.
  unfold CommandLineArgs_step. simpl. rewrite Hv.
  destruct Hk as (_ & -> & _). done.
Qed.

Lemma add_items_app m0 items items' :
  add_items m0 (items ++ items') = add_items (add_items m0 items) items'.
Proof. unfold add_items. by rewrite fold_left_app. Qed.

Lemma flag_items_steps items :
  forall m0,
    Forall flag_item items ->
    fold_left CommandLineArgs_step (concat (flag_args <$> items))
      {| m := m0; flag := EmptyString |}
    = {| m := add_items m0 items; flag := EmptyString |}.
Proof.
  induction items as [|item items IH]; intros m0 Hall; [done |].
  rewrite Forall_cons in Hall. destruct Hall as [Hitem Hall].
  rewrite fmap_cons. cbn [concat]. rewrite fold_left_app, flag_args_steps by done.
  rewrite IH by done. done.
Qed.

Lemma values_insert (m0 : gmap string (list string)) k vs key :
  values (<[k := vs]> m0) key = if bool_decide (k = key) then vs else values m0 key.
Proof.
  unfold values. case_bool_decide as Hk.
  - subst. by rewrite lookup_insert_eq.
  - by rewrite lookup_insert_ne.
Qed.

Lemma add_items_lookup items :
  forall m0 key,
    add_items m0 items !! key =
    match values_of key items with
    | [] => m0 !! key
    | vs => Some (values m0 key ++ vs)
    end.
Proof.
  induction items as [|[[n k] v] items IH]; intros m0 key; [done |].
  change (add_items m0 ((n, k, v) :: items))
    with (add_items (<[ToLower k := values m0 (ToLower k) ++ [v]]> m0) items).
  rewrite IH. unfold values_of. cbn [omap list_omap fst snd]. rewrite values_insert.
  destruct (decide (ToLower k = key)) as [Hk | Hk].
  - rewrite !bool_decide_eq_true_2 by done. subst. rewrite lookup_insert_eq.
    fold (values_of (ToLower k) items).
    destruct (values_of (ToLower k) items) as [|v' vs]; [done |].
    simpl. by rewrite <- app_assoc.
  - rewrite !bool_decide_eq_false_2 by done. by rewrite lookup_insert_ne.
Qed.

Lemma values_empty key : values ∅ key = [].
Proof. unfold values. by rewrite lookup_empty. Qed.

Lemma values_add_items m0 items key :
  values (add_items m0 items) key = values m0 key ++ values_of key items.
Proof.
  unfold values at 1. rewrite add_items_lookup.
  destruct (values_of key items); [| done]. by rewrite app_nil_r.
Qed.

(** What the loop does to a pending flag when the next flag arrives. *)
Lemma pending_switch m0 n k :
  flag_name k ->
  (if negb (is_empty (ToLower k)) && (length (values m0 (ToLower k)) =? 0)%nat
   then <[ToLower k := ["true"]]> m0 else m0)
  = add_items m0 (if bool_decide (values m0 (ToLower k) = []) then [(n, k, "true")] else []).
Proof.
  intros (_ & -> & _). simpl.
  destruct (values m0 (ToLower k)) as [|v vs] eqn:Hvs; simpl; [| done].
  unfold add_items. simpl. by rewrite Hvs.
Qed.

Lemma lookup_add_items items name :
  CommandLineArgs_lookup (add_items ∅ items) name
  = answer (values_of (ReplaceAll (ToLower name) "_" "-") items).
Proof.
  unfold CommandLineArgs_lookup, answer. rewrite add_items_lookup.
  unfold values. rewrite lookup_empty. simpl.
  by destruct (values_of _ items).
Qed.

Lemma concat_flag_args_length items :
  items <> [] -> (length (concat (flag_args <$> items)) =? 0)%nat = false.
Proof. by destruct items. Qed.

(** X14.  Flags that each come with a value, as [-name value] with any number of
    dashes: a name is found when, in lower case and with its underscores
    turned into dashes, it is the lower case of the name of a flag; its text
    is the values of these flags, in the order given, joined by commas. *)
Theorem CommandLineArgs_flags (items : list (nat * string * string)) (name : string) :
  items <> [] ->
  Forall flag_item items ->
  CommandLineArgs (concat (flag_args <$> items)) name
  = answer (values_of (ReplaceAll (ToLower name) "_" "-") items).
Proof.
  intros Hne Hall. unfold CommandLineArgs. rewrite concat_flag_args_length by done.
  unfold CommandLineArgs_loop. rewrite flag_items_steps by done. simpl.
  apply lookup_add_items.
Qed.

(** X15.  After flags that each come with a value ([-name value]), a flag
    without value that ends the command line is not recorded: every name is
    answered as on the command line without it. *)
Theorem CommandLineArgs_trailing_switch (items : list (nat * string * string))
    (n : nat) (k name : string) :
  Forall flag_item items ->
  flag_name k ->
  CommandLineArgs (concat (flag_args <$> items) ++ [switch_arg n k]) name
  = answer (values_of (ReplaceAll (ToLower name) "_" "-") items).
Proof.
  intros Hall Hk. unfold CommandLineArgs.
  assert ((length (concat (flag_args <$> items) ++ [switch_arg n k]) =? 0)%nat = false) as ->.
  { rewrite length_app. simpl. apply Nat.eqb_neq. lia. }
  unfold CommandLineArgs_loop. rewrite fold_left_app, flag_items_steps by done.
  cbn [fold_left]. rewrite switch_step by done. simpl.
  apply lookup_add_items.
Qed.

(** X16.  A flag without value that stands between flags that each come
    with a value ([-name value]), at least one of them after it, reads
    ["true"], unless one of the flags before it has given its name a value,
    in which case it adds nothing. *)
Theorem CommandLineArgs_switch (before after : list (nat * string * string))
    (n : nat) (k name : string) :
  Forall flag_item before ->
  Forall flag_item after ->
  after <> [] ->
  flag_name k ->
  CommandLineArgs (concat (flag_args <$> before) ++ switch_arg n k
                     :: concat (flag_args <$> after)) name
  = answer (values_of (ReplaceAll (ToLower name) "_" "-")
              (before
               ++ (if bool_decide (values_of (ToLower k) before = [])
                   then [(n, k, "true")] else [])
               ++ after)).
Proof.
  intros Hbefore Hafter Hne Hk. unfold CommandLineArgs.
  assert ((length (concat (flag_args <$> before) ++ switch_arg n k
                     :: concat (flag_args <$> after)) =? 0)%nat = false) as ->.
  { rewrite length_app. simpl. apply Nat.eqb_neq. lia. }
  unfold CommandLineArgs_loop. rewrite fold_left_app, flag_items_steps by done.
  cbn [fold_left]. rewrite switch_step by done. cbn [is_empty negb andb].
  destruct after as [|[[n2 k2] v2] after]; [done |].
  rewrite Forall_cons in Hafter. destruct Hafter as [[Hk2 Hv2] Hafter]. simpl in Hk2, Hv2.
  rewrite fmap_cons, flag_args_eq. cbn [concat app fold_left].
  rewrite switch_step by done.
  rewrite (pending_switch _ n k) by done.
  rewrite values_add_items, values_empty. cbn [app].
  set (m1 := add_items (add_items ∅ before) _).
  assert (CommandLineArgs_step {| m := m1; flag := ToLower k2 |} v2
          = {| m := add_items m1 [(n2, k2, v2)]; flag := EmptyString |}) as ->.
  { unfold CommandLineArgs_step. cbn [m flag]. rewrite Hv2.
    by destruct Hk2 as (_ & -> & _). }
  rewrite flag_items_steps by done. cbn [m].
  unfold m1. rewrite <- !add_items_app. rewrite lookup_add_items.
  rewrite <- ?app_assoc. reflexivity.
Qed.

End CommandLine.

(** ** The file system as a source *)

Section Files.
Context `{Host} `{System}.

Lemma FileSystem_resolved o name :
  FileSystem o name =
  match ReadFile (resolved o name) with
  | Failed err => Panics err
  | NotExist => Returns EmptyString false
  | Data data => Returns data true
  end.
Proof. unfold FileSystem, resolved. by destruct (IsAbs name). Qed.

(** X17.  A parser on the file system reads, for a field, the file named by the
    field, under the base directory (["."] when none is given) unless the
    name is absolute.  A read that fails for another reason than a missing
    file fails that field only, with the text of the read error, and leaves
    the heap as it was; a missing file is a field that is not found; the
    data of a file that is read is converted whole. *)
Theorem Parse_field_FileSystem (o : FileSystemOptions) (name : string) (f : field)
    (h : heap) :
  let parser := MakeParser [Some (FileSystem o)] in
  (forall err, ReadFile (resolved o name) = Failed err ->
     Parse_field parser name f h = (h, Some err)) /\
  (ReadFile (resolved o name) = NotExist ->
     Parse_field parser name f h =
     if required (opts f) then (h, Some "field is required")
     else (match fallback (opts f) with
           | Some fb => <[dst (value f) := fb]> h
           | None => h
           end, None)) /\
  (forall data, ReadFile (resolved o name) = Data data -> data <> EmptyString ->
     Parse_field parser name f h
     = ((genericValue_Parse (value f) data h).1,
        recover (genericValue_Parse (value f) data h).2)).
Proof.
  intros parser.
  assert (lookup parser name = FileSystem o name) as Hl.
  { unfold parser, MakeParser, joinLookupFuncs. simpl.
    by destruct (FileSystem o name) as [v [|] | p]. }
  unfold Parse_field, Parse_body. rewrite Hl, FileSystem_resolved.
  split; [| split].
  - intros err ->. done.
  - intros ->. simpl. destruct (required (opts f)); [done |].
    by destruct (fallback (opts f)).
  - intros data -> Hne. destruct data as [|a data]; [done |]. simpl.
    by destruct (genericValue_Parse (value f) _ h).
Qed.

End Files.

(** ** Runs *)

(** [TestCommandLineArgsSource]. *)
Example CommandLineArgs_TestCommandLineArgsSource :
  let source :=
    CommandLineArgs (H := SampleSystem.system [] [] [])
      ["--database-url"; "db"; "-force"; "--filter=*.sql"; "-count"; "42";
       "-input"; "a"; "--input"; "b"] in
  source "DATABASE_URL" = Returns "db" true /\
  source "FORCE" = Returns "true" true /\
  source "FILTER" = Returns "*.sql" true /\
  source "COUNT" = Returns "42" true /\
  source "OTHER" = Returns EmptyString false /\
  source "INPUT" = Returns "a,b" true.
Proof. vm_compute. repeat split. Qed.

(** [TestFileSystem], with a file that cannot be read beside it. *)
Example Parse_TestFileSystem :
  let sys := SampleSystem.system [] [("./test_output/secret.txt", "hello world")]
               ["./test_output/locked.txt"] in
  let p0 := MakeParser (H := Sample.host)
              [Some (FileSystem (H := sys) {| Base := "./test_output" |})] in
  let p1 := Var p0 Sample.tstring 0%nat "secret.txt" [] in
  let p2 := Var p1 Sample.tstring 1%nat "locked.txt" [] in
  let p3 := Var p2 Sample.tstring 2%nat "absent.txt" [Default (VString "none")] in
  Parse (H := Sample.host) p3 [VString EmptyString; VString EmptyString; VString EmptyString]
  = ([VString "hello world"; VString EmptyString; VString "none"],
     Some "failed to parse variable(s): locked.txt: open ./test_output/locked.txt: permission denied").
Proof. vm_compute. reflexivity. Qed.

Lemma run_plain : Forall (fun nf => plain_field run_heap nf.2) run_order.
Proof. repeat constructor; simpl; lia. Qed.

Lemma run_NoDup : NoDup (destinations run_order).
Proof. apply (bool_decide_unpack _). vm_compute. exact I. Qed.

Lemma Parse_in_writes_destinations_witness :
  (Parse_in (H := Sample.host) run_parser run_order run_heap).1 !! 5%nat
  = Some (VString "other").
Proof.
  apply (Parse_in_writes_destinations (H := Sample.host) run_parser run_order run_heap
           _ (Parse_in (H := Sample.host) run_parser run_order run_heap).2).
  - exact run_plain.
  - apply surjective_pairing.
  - simpl. lia.
  - apply (bool_decide_unpack _). vm_compute. exact I.
Defined.

Lemma Parse_in_skipped_field_witness :
  (Parse_in (H := Sample.host) run_parser run_order run_heap).1 !! 3%nat
  = Some (VBool true).
Proof.
  apply (Parse_in_skipped_field (H := Sample.host) run_parser run_order "debug"
           {| value := {| T := Sample.tbool; dst := 3%nat |}; opts := zero_options |}
           run_heap _ (Parse_in (H := Sample.host) run_parser run_order run_heap).2).
  - exact run_plain.
  - exact run_NoDup.
  - do 3 right. left.
  - left. split; [by exists EmptyString | done].
  - apply surjective_pairing.
Defined.

Lemma Parse_in_fallback_witness :
  (Parse_in (H := Sample.host) run_parser run_order run_heap).1 !! 2%nat = Some (VInt 3).
Proof.
  apply (Parse_in_fallback (H := Sample.host) run_parser run_order "level"
           {| value := {| T := Sample.tint; dst := 2%nat |};
              opts := Default (VInt 3) zero_options |}
           (VInt 3) EmptyString run_heap _
           (Parse_in (H := Sample.host) run_parser run_order run_heap).2).
  - exact run_plain.
  - exact run_NoDup.
  - do 2 right. left.
  - reflexivity.
  - reflexivity.
  - reflexivity.
  - apply surjective_pairing.
Defined.

Lemma Parse_in_success_witness :
  exists text ok,
    lookup run_parser "count" = Returns text ok /\
    (required zero_options = true -> ok = true) /\
    (nonEmpty zero_options = true -> ok = true -> text <> EmptyString).
Proof.
  apply (Parse_in_success (H := Sample.host) run_parser run_order "count"
           {| value := {| T := Sample.tint; dst := 0%nat |}; opts := zero_options |}
           run_heap (Parse_in (H := Sample.host) run_parser run_order run_heap).1).
  - vm_compute. reflexivity.
  - left.
Defined.

Lemma genericValue_Parse_agrees_witness :
  let out1 := genericValue_Parse (H := Sample.host)
                {| T := TSlice None Sample.tint; dst := 0%nat |} "1,2" [VSlice None] in
  let out2 := genericValue_Parse (H := Sample.host)
                {| T := TSlice None Sample.tint; dst := 1%nat |} "1,2"
                [VInt 9; VSlice (Some [VInt 5])] in
  out1.2 = out2.2 /\ (out1.2 = Ok -> out1.1 !! 0%nat = out2.1 !! 1%nat).
Proof.
  intros out1 out2.
  apply (genericValue_Parse_agrees (H := Sample.host) (TSlice None Sample.tint)
           0%nat 1%nat "1,2" [VSlice None] [VInt 9; VSlice (Some [VInt 5])]).
  - reflexivity.
  - reflexivity.
  - discriminate.
  - simpl. lia.
  - simpl. lia.
  - apply surjective_pairing.
  - apply surjective_pairing.
Defined.


Lemma parse_strings_round_trip_witness :
  exists h',
    parse (H := Sample.host) (TSlice None Sample.tstring) (Cell 0%nat) " a, b ,c" true
      [VSlice None] = (h', Ok) /\
    h' !! 0%nat = Some (VSlice (Some (VString <$> [" a"; " b "; "c"]))) /\
    Forall (fun piece => (Cut piece ",").2 = false) [" a"; " b "; "c"] /\
    Join [" a"; " b "; "c"] "," = " a, b ,c".
Proof.
  apply (parse_strings_round_trip (H := Sample.host) None None 0%nat " a, b ,c"
           [VSlice None]).
  - simpl. lia.
  - reflexivity.
Defined.

Lemma parse_joined_values_witness :
  (parse (H := Sample.host) (TSlice None Sample.tstring) (Cell 0%nat)
     (Join ["a"; "b"] ",") true [VSlice None]).2 = Ok /\
  (parse (H := Sample.host) (TSlice None Sample.tstring) (Cell 0%nat)
     (Join ["a"; "b"] ",") true [VSlice None]).1 !! 0%nat
  = Some (VSlice (Some (VString <$> ["a"; "b"]))).
Proof.
  apply (parse_joined_values (H := Sample.host) None None 0%nat ["a"; "b"] [VSlice None]).
  - simpl. lia.
  - discriminate.
  - repeat constructor.
Defined.

(** A single value of white space, as [-tag " "] gives, is lost. *)
Example CommandLineArgs_blank_value :
  let text := CommandLineArgs (H := SampleSystem.system [] [] []) ["-tag"; " "] "TAG" in
  text = Returns " " true /\
  genericValue_Parse (H := Sample.host) {| T := TSlice None Sample.tstring; dst := 0%nat |}
    " " [VSlice None]
  = ([VSlice (Some [])], Ok).
Proof. vm_compute. split; reflexivity. Qed.

Lemma parse_map_entry_witness :
  let out := parse (H := Sample.host) (TMap None Sample.tstring Sample.tstring) (Cell 0%nat)
               ("url" +:+ "=" +:+ "http://h/?a=1") true [VMap None] in
  out.2 = Ok /\
  out.1 !! 0%nat = Some (VMap (Some [(VString "url", VString "http://h/?a=1")])).
Proof.
  apply (parse_map_entry (H := Sample.host) None None None 0%nat "url" "http://h/?a=1"
           [VMap None]).
  - simpl. lia.
  - reflexivity.
  - reflexivity.
  - reflexivity.
  - reflexivity.
Defined.

Lemma parse_allocated_pointer_witness :
  let out := genericValue_Parse (H := Sample.host)
               {| T := TPtr Sample.tint; dst := 0%nat |} "12" [VPtr (Some 1%nat); VInt 0] in
  parse (H := Sample.host) Sample.tint (Cell 1%nat) "12" true [VPtr (Some 1%nat); VInt 0]
  = (out.1, out.2) /\
  out.1 !! 0%nat = Some (VPtr (Some 1%nat)) /\
  (out.2 <> Ok ->
   forall c, (c < length [VPtr (Some 1%nat); VInt 0])%nat ->
   out.1 !! c = [VPtr (Some 1%nat); VInt 0] !! c).
Proof.
  intros out.
  apply (parse_allocated_pointer (H := Sample.host) Sample.tint 0%nat 1%nat "12"
           [VPtr (Some 1%nat); VInt 0] out.1 out.2).
  - reflexivity.
  - simpl. lia.
  - lia.
  - reflexivity.
  - reflexivity.
  - apply surjective_pairing.
Defined.

Lemma joinLookupFuncs_panics_witness :
  joinLookupFuncs
    ([Sample.table [("A", "1")]] ++ Sample.capitalized :: [Sample.table [("b", "2")]]) "b"
  = Panics "lookup key not capitalized".
Proof.
  apply (joinLookupFuncs_panics [Sample.table [("A", "1")]] [Sample.table [("b", "2")]]
           Sample.capitalized "b" "lookup key not capitalized").
  - repeat constructor. by exists EmptyString.
  - reflexivity.
Defined.

Lemma joinLookupFuncs_app_witness :
  joinLookupFuncs ([Sample.table [("A", "1")]] ++ [Sample.table [("A", "2"); ("B", "3")]]) "B"
  = joinLookupFuncs [joinLookupFuncs [Sample.table [("A", "1")]];
                     joinLookupFuncs [Sample.table [("A", "2"); ("B", "3")]]] "B".
Proof.
  apply (joinLookupFuncs_app [Sample.table [("A", "1")]]
           [Sample.table [("A", "2"); ("B", "3")]] "B").
  discriminate.
Defined.

Lemma CommandLineArgs_positional_witness :
  CommandLineArgs (H := SampleSystem.system ["-x"; "1"] [] []) ["build"; "all"] "x"
  = Returns EmptyString false.
Proof.
  apply (CommandLineArgs_positional (H := SampleSystem.system ["-x"; "1"] [] [])
           ["build"; "all"] "x").
  - discriminate.
  - repeat constructor.
Defined.

Lemma run_flag_items :
  Forall (flag_item (H := SampleSystem.system [] [] []))
    [(1%nat, "Input", "a"); (0%nat, "count", "42"); (1%nat, "input", "B")].
Proof. repeat constructor. Qed.

Lemma CommandLineArgs_flags_witness :
  CommandLineArgs (H := SampleSystem.system [] [] [])
    (concat (flag_args <$>
       [(1%nat, "Input", "a"); (0%nat, "count", "42"); (1%nat, "input", "B")])) "INPUT"
  = Returns "a,B" true.
Proof.
  apply (CommandLineArgs_flags (H := SampleSystem.system [] [] [])
           [(1%nat, "Input", "a"); (0%nat, "count", "42"); (1%nat, "input", "B")] "INPUT").
  - discriminate.
  - exact run_flag_items.
Defined.

Lemma CommandLineArgs_trailing_switch_witness :
  CommandLineArgs (H := SampleSystem.system [] [] [])
    (concat (flag_args <$>
       [(1%nat, "Input", "a"); (0%nat, "count", "42"); (1%nat, "input", "B")])
     ++ [switch_arg 0 "force"]) "FORCE"
  = Returns EmptyString false.
Proof.
  apply (CommandLineArgs_trailing_switch (H := SampleSystem.system [] [] [])
           [(1%nat, "Input", "a"); (0%nat, "count", "42"); (1%nat, "input", "B")]
           0%nat "force" "FORCE").
  - exact run_flag_items.
  - repeat split.
Defined.

Lemma CommandLineArgs_switch_witness :
  CommandLineArgs (H := SampleSystem.system [] [] [])
    (concat (flag_args <$> [(0%nat, "count", "42")]) ++ switch_arg 0 "force"
       :: concat (flag_args <$> [(1%nat, "input", "B")])) "FORCE"
  = Returns "true" true.
Proof.
  apply (CommandLineArgs_switch (H := SampleSystem.system [] [] [])
           [(0%nat, "count", "42")] [(1%nat, "input", "B")] 0%nat "force" "FORCE").
  - repeat constructor.
  - repeat constructor.
  - discriminate.
  - repeat split.
Defined.
